(** * InkFlow: the pressure-simulated brush, embedded and verified

    The development embeds the three algorithmic pieces of the
    repository,

    - [utils/ink.ts]: the vector helpers, [getStrokeOutlinePoints] and
      [getSvgPathFromStroke];
    - [components/Canvas.tsx]: [getPoint], [drawStrokeToCtx],
      [renderCanvas] and the three pointer handlers;
    - [App.tsx]: the undo, redo, clear and keyboard handlers and
      [handleHistoryChange];

    and proves the properties the specification states about them.

    State.  The handlers of a React component are closures of a render:
    what they read is what that render captured, what they write goes to
    the latest state.  Each handler that reads state is therefore
    embedded twice, on one state (the render is up to date) and on a
    captured state and a latest one; a session is a sequence of handler
    calls and renders.

    Numbers.  A JavaScript [number] is modelled as a real number.  The
    one operation of the source that has no value on the reals is a
    division whose divisor is zero (JavaScript answers [Infinity] or
    [NaN] there); the embedding therefore makes every [/] of the source
    a checked division in an error monad, and reading an array cell that
    holds no element (a [TypeError] as soon as a field of the cell is
    read) is the second fault.  Every function is proved to run without
    a fault, which is what licenses reading its result as a real. *)

From Stdlib Require Import Reals Lra Lia ZArith Ascii String Bool Arith PeanoNat List.
Import ListNotations.

Local Open Scope R_scope.

(** ** The fault monad *)

Module Fault.

Inductive fault : Type :=
| DivisionByZero   (* a [/] whose divisor is [0]: [Infinity] or [NaN] in JS *)
| IndexOutOfRange. (* a field read on [arr[i]] with [i] outside the array  *)

Inductive result (A : Type) : Type :=
| Ok (a : A)
| Err (e : fault).

Arguments Ok {A} a.
Arguments Err {A} e.

Definition ret {A} (a : A) : result A := Ok a.

Definition bind {A B} (m : result A) (k : A -> result B) : result B :=
  match m with
  | Ok a => k a
  | Err e => Err e
  end.

Definition succeeds {A} (m : result A) : Prop := exists a, m = Ok a.

End Fault.

Export Fault.

Declare Scope fault_scope.
Delimit Scope fault_scope with fault.
Notation "x <- m ;; k" := (bind m (fun x => k))
  (at level 61, m at next level, right associativity) : fault_scope.
Local Open Scope fault_scope.

(** ** JavaScript number primitives *)

Module Js.

(** [a === b] on numbers. *)
Definition eqb (a b : R) : bool := if Req_dec_T a b then true else false.

(** [a < b] on numbers. *)
Definition ltb (a b : R) : bool := if Rlt_dec a b then true else false.

(** [a / b].  The divisor is inspected: a zero divisor is the fault. *)
Definition div (a b : R) : result R :=
  if eqb b 0 then Err DivisionByZero else Ok (a / b).

(** [Math.hypot(a, b)]. *)
Definition hypot (a b : R) : R := sqrt (a * a + b * b).

(** [Math.pow(a, n)] for a literal natural exponent. *)
Definition pow (a : R) (n : nat) : R := a ^ n.

(** [Math.min], [Math.max]. *)
Definition min (a b : R) : R := Rmin a b.
Definition max (a b : R) : R := Rmax a b.

(** [a || d] where [a] is a number: [0] is the only falsy real. *)
Definition or_num (a d : R) : R := if eqb a 0 then d else a.

(** [a || d] where [a] is an optional number field: [undefined] and [0]
    are falsy. *)
Definition or_opt (a : option R) (d : R) : R :=
  match a with
  | Some v => or_num v d
  | None => d
  end.

(** [a ?? d] where [a] is an optional number field: only [undefined] is
    nullish. *)
Definition nullish (a : option R) (d : R) : R :=
  match a with
  | Some v => v
  | None => d
  end.

(** [arr[i]] followed by a field read. *)
Definition at_index {A} (arr : list A) (i : nat) : result A :=
  match nth_error arr i with
  | Some a => Ok a
  | None => Err IndexOutOfRange
  end.

End Js.

(** ** [types.ts] *)

Module Types.

Record Point : Type := mkPoint {
  x : R;
  y : R;
  pressure : option R;   (* pressure?: number, 0.0 to 1.0 *)
  time : option R        (* time?: number *)
}.

(** The object literal [{ x: a, y: b }]. *)
Definition xy (a b : R) : Point := mkPoint a b None None.

Record StrokeSettings : Type := mkSettings {
  size : R;
  thinning : R;
  smoothing : R;
  color : string;
  simulatePressure : bool
}.

Record DrawnStroke : Type := mkStroke {
  points : list Point;
  stroke_color : string;   (* color *)
  settings : StrokeSettings
}.

Inductive ToolType : Type := PEN | ERASER.

End Types.

Export Types.

(** ** [utils/ink.ts] *)

Module Ink.

Definition dist (a b : Point) : R := Js.hypot (x a - x b) (y a - y b).

Definition lerp (a b t : R) : R := a + (b - a) * t.

Definition add (a b : Point) : Point := xy (x a + x b) (y a + y b).

Definition sub (a b : Point) : Point := xy (x a - x b) (y a - y b).

Definition mul (a : Point) (n : R) : Point := xy (x a * n) (y a * n).

Definition perp (a : Point) : Point := xy (y a) (- x a).

Definition normalize (a : Point) : result Point :=
  let d := Js.hypot (x a) (y a) in
  if Js.eqb d 0 then ret (xy 0 0)
  else
    nx <- Js.div (x a) d ;;
    ny <- Js.div (y a) d ;;
    ret (xy nx ny).

(** [for (let i = from; i < ...; i++) body], over the indices [idxs]. *)
Fixpoint for_each {S : Type} (idxs : list nat) (body : nat -> S -> result S)
  (st : S) : result S :=
  match idxs with
  | [] => ret st
  | i :: rest => st' <- body i st ;; for_each rest body st'
  end.

(** [Math.min(5, Math.floor(points.length / 3))] *)
Definition taperLength (len : nat) : nat := Nat.min 5 (len / 3).

(** The cubic ease-out [1 - Math.pow(1 - t, 3)] of both taper branches. *)
Definition easeOut (t : R) : R := 1 - Js.pow (1 - t) 3.

(** Lines 64-74: the tapering of [pressure] at index [i] of [len] points.
    The index arithmetic [points.length - 1 - taperLength] is done in [Z],
    where it cannot truncate. *)
Definition taper (len i : nat) (pressure : R) : result R :=
  let taperLength := taperLength len in
  if (i <? taperLength)%nat then
    t <- Js.div (INR i) (INR taperLength) ;;
    ret (pressure * easeOut t)
  else if (Z.of_nat len - 1 - Z.of_nat taperLength <? Z.of_nat i)%Z then
    t <- Js.div (IZR (Z.of_nat len - 1 - Z.of_nat i)) (INR taperLength) ;;
    ret (pressure * easeOut t)
  else ret pressure.

(** The variables that live across iterations of the loop. *)
Record LoopState : Type := mkLoop {
  prevPressure : R;
  prevVector : Point;
  leftPts : list Point;
  rightPts : list Point
}.

(** The [const]/[let] bindings of one iteration. *)
Record Locals : Type := mkLocals {
  curr : Point;
  l_pressure : R;       (* [pressure] after line 77 *)
  width : R;
  vector : Point;
  smoothVector : Point;
  offset : Point
}.

Section Loop.

Variable points : list Point.
Variable options : StrokeSettings.

(** Lines 57-98: what iteration [i] computes from the running state. *)
Definition locals (i : nat) (st : LoopState) : result Locals :=
  curr <- Js.at_index points i ;;
  let pressure := Js.nullish (pressure curr) 0.5 in
  pressure <- taper (length points) i pressure ;;
  let pressure := lerp (prevPressure st) pressure 0.5 in
  let width := size options * (1 - thinning options * (1 - pressure)) in
  vector <-
    (if (Z.of_nat i <? Z.of_nat (length points) - 1)%Z then
       next <- Js.at_index points (i + 1) ;;
       normalize (sub next curr)
     else ret (prevVector st)) ;;
  smoothVector <- normalize (add vector (prevVector st)) ;;
  let normal := perp smoothVector in
  half <- Js.div width 2 ;;
  let offset := mul normal half in
  ret (mkLocals curr pressure width vector smoothVector offset).

(** One iteration: the bindings, then the four assignments and pushes
    (lines 78, 95, 100, 101). *)
Definition iteration (i : nat) (st : LoopState) : result LoopState :=
  l <- locals i st ;;
  ret {| prevPressure := l_pressure l;
         prevVector := vector l;
         leftPts := leftPts st ++ [sub (curr l) (offset l)];
         rightPts := rightPts st ++ [add (curr l) (offset l)] |}.

(** Lines 49-53: the state on entry to the loop. *)
Definition initial : result LoopState :=
  p0 <- Js.at_index points 0 ;;
  p1 <- Js.at_index points 1 ;;
  let prevPressure := Js.or_opt (pressure p0) 0.5 in
  prevVector <- normalize (sub p1 p0) ;;
  ret (mkLoop prevPressure prevVector [] []).

(** The running state when iteration [k] begins. *)
Definition stateAt (k : nat) : result LoopState :=
  st0 <- initial ;;
  for_each (seq 0 k) iteration st0.

Definition getStrokeOutlinePoints : result (list Point) :=
  if (length points <? 2)%nat then ret []
  else
    st0 <- initial ;;
    st <- for_each (seq 0 (length points)) iteration st0 ;;
    ret (leftPts st ++ rev (rightPts st)).

End Loop.

Section Serializer.

(** [n.toFixed(digits)]: the decimal rendering of a number is left
    abstract; no property below depends on which digits it prints. *)
Variable toFixed : R -> nat -> string.

Local Open Scope string_scope.

(** Lines 122-133: one round of the loop appends one [Q] instruction. *)
Definition appendCurve (strokePoints : list Point) (len i : nat) (d : string)
  : result string :=
  p1 <- Js.at_index strokePoints i ;;
  p2 <- Js.at_index strokePoints ((i + 1) mod len) ;;
  mx <- Js.div (x p1 + x p2) 2 ;;
  my <- Js.div (y p1 + y p2) 2 ;;
  let mid := xy mx my in
  ret (d ++ " Q " ++ toFixed (x p1) 2 ++ " " ++ toFixed (y p1) 2 ++ ", "
         ++ toFixed (x mid) 2 ++ " " ++ toFixed (y mid) 2).

Definition getSvgPathFromStroke (strokePoints : list Point) : result string :=
  if (length strokePoints =? 0)%nat then ret EmptyString
  else
    let len := length strokePoints in
    p0 <- Js.at_index strokePoints 0 ;;
    let d := "M " ++ toFixed (x p0) 2 ++ " " ++ toFixed (y p0) 2 in
    d <- for_each (seq 1 (len - 1)) (appendCurve strokePoints len) d ;;
    ret (d ++ " Z").

End Serializer.

End Ink.

(** ** [App.tsx] and [components/Canvas.tsx] *)

Module Canvas.

(** The fields of a pointer event that [getPoint] reads.  [e.pressure] is
    a [number] on every pointer event; it is never [undefined]. *)
Record PointerEvent : Type := mkEvent {
  clientX : R;
  clientY : R;
  e_pressure : R
}.

(** [canvasRef.current.getBoundingClientRect()]. *)
Record DOMRect : Type := mkRect {
  rect_left : R;
  rect_top : R
}.

(** The props and state the pointer handlers read and write: the
    [isDrawing] ref, the [currentPoints] state of [Canvas], and the
    [history] and [redoStack] states of [App].

    A handler is a closure of one render.  It reads the ref as it is
    now, but [currentPoints], [history], [redoStack], [settings] and
    [tool] as that render captured them; what it writes goes to the
    latest state, which the next render captures.  Where a handler
    reads captured values, it is embedded twice: taking one [State],
    for a render that is up to date, and taking the captured [State]
    beside the latest one (the name ends in [From]). *)
Record State : Type := mkState {
  isDrawing : bool;
  currentPoints : list Point;
  history : list DrawnStroke;
  redoStack : list DrawnStroke
}.

Section Handlers.

Variable rect : DOMRect.
Variable canvas_settings : StrokeSettings.   (* the [settings] prop *)
Variable tool : ToolType.

(** Lines 43-47: the velocity of the pointer between [last] and the
    sample at [(x, y)] taken at time [t]. *)
Definition velocity (x y t : R) (last : Point) : result R :=
  let dist := Js.hypot (x - Types.x last) (y - Types.y last) in
  let dt := t - Js.or_opt (time last) 0 in
  Js.div dist (Js.or_num dt 1).

(** [getPoint(e, pointsBuffer)], where [now] is what [performance.now()]
    returns during the call. *)
Definition getPoint (now : R) (e : PointerEvent) (pointsBuffer : list Point)
  : result Point :=
  let x := clientX e - rect_left rect in
  let y := clientY e - rect_top rect in
  let t := now in
  let pressure := e_pressure e in
  pressure <-
    (if Js.eqb pressure 0 || Js.eqb pressure 0.5 then
       if (0 <? length pointsBuffer)%nat then
         last <- Js.at_index pointsBuffer (length pointsBuffer - 1) ;;
         velocity <- velocity x y t last ;;
         let maxV := 2.5 in
         normalizedV <- Js.div (Js.min velocity maxV) maxV ;;
         ret (Js.max 0.1 (Js.min 1.0 (1.0 - normalizedV)))
       else ret 0.5
     else ret pressure) ;;
  ret (mkPoint x y (Some pressure) (Some t)).

(** [handleHistoryChange] of [App], the [onHistoryChange] prop. *)
Definition handleHistoryChange (newHistory : list DrawnStroke) (st : State)
  : State :=
  mkState (isDrawing st) (currentPoints st) newHistory [].

Definition handlePointerDown (now : R) (e : PointerEvent) (st : State)
  : result State :=
  pt <- getPoint now e [] ;;
  let pt := mkPoint (x pt) (y pt) (Some 0.1) (time pt) in
  ret (mkState true [pt] (history st) (redoStack st)).

(** The body of [for (const evt of events)] in [handlePointerMove]; each
    event comes with the clock reading of its [getPoint] call. *)
Fixpoint appendEvents (events : list (PointerEvent * R)) (next : list Point)
  : result (list Point) :=
  match events with
  | [] => ret next
  | (evt, now) :: rest =>
      pt <- getPoint now evt next ;;
      if (0 <? length next)%nat then
        last <- Js.at_index next (length next - 1) ;;
        if Js.ltb (Js.hypot (x pt - x last) (y pt - y last)) 1
        then appendEvents rest next
        else appendEvents rest (next ++ [pt])
      else appendEvents rest (next ++ [pt])
  end.

(** [events] is [[e]], or the coalesced events when there are any. *)
Definition handlePointerMove (e : PointerEvent * R)
  (coalesced : list (PointerEvent * R)) (st : State) : result State :=
  if negb (isDrawing st) then ret st
  else
    let events := if (0 <? length coalesced)%nat then coalesced else [e] in
    next <- appendEvents events (currentPoints st) ;;
    ret (mkState (isDrawing st) next (history st) (redoStack st)).

(** [handlePointerUp] when the render that created it is up to date:
    the [currentPoints] and [history] it captured are those of [st]. *)
Definition handlePointerUp (st : State) : State :=
  if negb (isDrawing st) then st
  else
    let st := mkState false (currentPoints st) (history st) (redoStack st) in
    let st :=
      if (1 <? length (currentPoints st))%nat then
        let newStroke :=
          mkStroke (currentPoints st)
            (match tool with ERASER => "eraser"%string
                        | PEN => color canvas_settings end)
            canvas_settings in
        handleHistoryChange (history st ++ [newStroke]) st
      else st in
    mkState (isDrawing st) [] (history st) (redoStack st).

(** [handlePointerUp] in general: the render that created it captured
    the [currentPoints] and [history] of [seen] (lines 208-214 read
    these), while the ref and the writes are those of [st], the latest
    state. *)
Definition handlePointerUpFrom (seen st : State) : State :=
  if negb (isDrawing st) then st
  else
    let st := mkState false (currentPoints st) (history st) (redoStack st) in
    let st :=
      if (1 <? length (currentPoints seen))%nat then
        let newStroke :=
          mkStroke (currentPoints seen)
            (match tool with ERASER => "eraser"%string
                        | PEN => color canvas_settings end)
            canvas_settings in
        handleHistoryChange (history seen ++ [newStroke]) st
      else st in
    mkState (isDrawing st) [] (history st) (redoStack st).

(** [drawStrokeToCtx]: [None] when nothing is drawn, else the path data
    and the fill colour handed to [ctx.fill]. *)
Definition drawStrokeToCtx (toFixed : R -> nat -> string)
  (points : list Point) (color : string) (opts : StrokeSettings)
  : result (option (string * string)) :=
  if (length points <? 2)%nat then ret None
  else
    outline <- Ink.getStrokeOutlinePoints points opts ;;
    pathData <- Ink.getSvgPathFromStroke toFixed outline ;;
    ret (Some (pathData, color)).

End Handlers.

End Canvas.

(** ** [App.tsx]: undo, redo, clear and the keyboard shortcut *)

Module App.

(** [INITIAL_SETTINGS]. *)
Definition INITIAL_SETTINGS : StrokeSettings :=
  mkSettings 14 0.75 0.5 "#1c1917" true.

(** [handleUndo], [handleRedo], [handleClear] and [handleKeyDown] when
    the render that created them is up to date: the [history] and
    [redoStack] they captured are those of [st]. *)

(** [handleUndo].  [prev.slice(0, -1)] is [removelast prev]. *)
Definition handleUndo (st : Canvas.State) : result Canvas.State :=
  if (length (Canvas.history st) =? 0)%nat then ret st
  else
    last <- Js.at_index (Canvas.history st) (length (Canvas.history st) - 1) ;;
    ret (Canvas.mkState (Canvas.isDrawing st) (Canvas.currentPoints st)
           (removelast (Canvas.history st)) (Canvas.redoStack st ++ [last])).

(** [handleRedo]. *)
Definition handleRedo (st : Canvas.State) : result Canvas.State :=
  if (length (Canvas.redoStack st) =? 0)%nat then ret st
  else
    next <- Js.at_index (Canvas.redoStack st)
              (length (Canvas.redoStack st) - 1) ;;
    ret (Canvas.mkState (Canvas.isDrawing st) (Canvas.currentPoints st)
           (Canvas.history st ++ [next]) (removelast (Canvas.redoStack st))).

(** [handleClear]. *)
Definition handleClear (st : Canvas.State) : Canvas.State :=
  if (0 <? length (Canvas.history st))%nat then
    Canvas.mkState (Canvas.isDrawing st) (Canvas.currentPoints st) [] []
  else st.

(** The fields of a keyboard event that [handleKeyDown] reads. *)
Record KeyboardEvent : Type := mkKey {
  metaKey : bool;
  ctrlKey : bool;
  shiftKey : bool;
  key : string
}.

(** [handleKeyDown]. *)
Definition handleKeyDown (e : KeyboardEvent) (st : Canvas.State)
  : result Canvas.State :=
  if (metaKey e || ctrlKey e) && String.eqb (key e) "z" then
    if shiftKey e then handleRedo st else handleUndo st
  else ret st.

(** The same four handlers as closures of a render that captured
    [seen], run on the latest state [st]: the tests and the stroke that
    is moved come from [seen], the updaters ([prev => ...]) work on
    [st]. *)
Definition handleUndoFrom (seen st : Canvas.State) : result Canvas.State :=
  if (length (Canvas.history seen) =? 0)%nat then ret st
  else
    last <- Js.at_index (Canvas.history seen)
              (length (Canvas.history seen) - 1) ;;
    ret (Canvas.mkState (Canvas.isDrawing st) (Canvas.currentPoints st)
           (removelast (Canvas.history st)) (Canvas.redoStack st ++ [last])).

Definition handleRedoFrom (seen st : Canvas.State) : result Canvas.State :=
  if (length (Canvas.redoStack seen) =? 0)%nat then ret st
  else
    next <- Js.at_index (Canvas.redoStack seen)
              (length (Canvas.redoStack seen) - 1) ;;
    ret (Canvas.mkState (Canvas.isDrawing st) (Canvas.currentPoints st)
           (Canvas.history st ++ [next]) (removelast (Canvas.redoStack st))).

Definition handleClearFrom (seen st : Canvas.State) : Canvas.State :=
  if (0 <? length (Canvas.history seen))%nat then
    Canvas.mkState (Canvas.isDrawing st) (Canvas.currentPoints st) [] []
  else st.

Definition handleKeyDownFrom (e : KeyboardEvent) (seen st : Canvas.State)
  : result Canvas.State :=
  if (metaKey e || ctrlKey e) && String.eqb (key e) "z" then
    if shiftKey e then handleRedoFrom seen st else handleUndoFrom seen st
  else ret st.

End App.

(** ** [components/Canvas.tsx]: [renderCanvas] *)

Module Render.

Inductive CompositeOperation : Type := SourceOver | DestinationOut.

(** One [ctx.fill(p)]: the composite operation in force, the path data
    of [p] and the fill style. *)
Record Fill : Type := mkFill {
  globalCompositeOperation : CompositeOperation;
  pathData : string;
  fillStyle : string
}.

Section RenderCanvas.

Variable toFixed : R -> nat -> string.
Variable canvas_settings : StrokeSettings.   (* the [settings] prop *)
Variable tool : ToolType.

(** A call of [drawStrokeToCtx] while [op] is the composite operation:
    the fills it performs, none or one. *)
Definition draw (op : CompositeOperation) (pts : list Point)
  (fill_color : string) (opts : StrokeSettings) : result (list Fill) :=
  drawn <- Canvas.drawStrokeToCtx toFixed pts fill_color opts ;;
  ret (match drawn with
       | Some (path, style) => [mkFill op path style]
       | None => []
       end).

(** Lines 97-108: the body of [history.forEach]. *)
Definition drawHistoryStroke (stroke : DrawnStroke) : result (list Fill) :=
  if String.eqb (stroke_color stroke) "eraser" then
    draw DestinationOut (points stroke) "#000000" (settings stroke)
  else
    draw SourceOver (points stroke) (stroke_color stroke) (settings stroke).

Fixpoint drawHistory (history : list DrawnStroke) : result (list Fill) :=
  match history with
  | [] => ret []
  | stroke :: rest =>
      first <- drawHistoryStroke stroke ;;
      others <- drawHistory rest ;;
      ret (first ++ others)
  end.

(** [renderCanvas], with the canvas and its 2d context present: the
    fills performed on the cleared canvas, in order. *)
Definition renderCanvas (st : Canvas.State) : result (list Fill) :=
  past <- drawHistory (Canvas.history st) ;;
  current <-
    (if (0 <? length (Canvas.currentPoints st))%nat then
       match tool with
       | ERASER =>
           draw DestinationOut (Canvas.currentPoints st) "#000000"
             canvas_settings
       | PEN =>
           draw SourceOver (Canvas.currentPoints st) (color canvas_settings)
             canvas_settings
       end
     else ret []) ;;
  ret (past ++ current).

End RenderCanvas.

(** The fill [f] paints the history stroke [stroke]: an eraser stroke in
    black with [destination-out], any other stroke in its own colour
    with [source-over]. *)
Definition paints (stroke : DrawnStroke) (f : Fill) : Prop :=
  if String.eqb (stroke_color stroke) "eraser" then
    globalCompositeOperation f = DestinationOut /\
    fillStyle f = "#000000"%string
  else
    globalCompositeOperation f = SourceOver /\
    fillStyle f = stroke_color stroke.

End Render.

(** ** Vocabulary for strokes *)

Module Stroke.

(** The point [p] moved by [(dx, dy)]. *)
Definition shift (dx dy : R) (p : Point) : Point :=
  mkPoint (x p + dx) (y p + dy) (pressure p) (time p).

(** Two points at the same place of the plane. *)
Definition samePlace (p q : Point) : Prop := x p = x q /\ y p = y q.

(** Consecutive points are at least one unit apart. *)
Definition spaced (pts : list Point) : Prop :=
  forall i a b, nth_error pts i = Some a -> nth_error pts (S i) = Some b ->
    1 <= Js.hypot (x b - x a) (y b - y a).

(** A point as [getPoint] makes them: pressure and time present, the
    pressure not [0]. *)
Definition sampled (p : Point) : Prop :=
  (exists v, pressure p = Some v /\ v <> 0) /\ (exists t, time p = Some t).

(** A stroke as the pointer handlers build them. *)
Definition drawn (pts : list Point) : Prop :=
  (exists p rest, pts = p :: rest /\ pressure p = Some 0.1) /\
  Forall sampled pts /\ spaced pts.

(** Every pressure that is present lies in [[0, 1]]. *)
Definition pressuresInRange (pts : list Point) : Prop :=
  Forall (fun p => forall v, pressure p = Some v -> 0 <= v <= 1) pts.

End Stroke.

(** ** A drawing session

    The application as a state machine.  One [Session] is one value of
    every piece of state: [tool], [settings], [history], [redoStack] of
    [App], [currentPoints] and the [isDrawing] ref of [Canvas].  The
    running application holds two of them: the latest one, which the
    updaters and the ref work on, and the one the last render captured,
    which the handlers read.  There is one action per handler, and one
    for a render, which may come between any two handlers or fail to
    come. *)

Module Session.

Record Session : Type := mkSession {
  app_tool : ToolType;
  app_settings : StrokeSettings;
  app_canvas : Canvas.State
}.

Record Running : Type := mkRunning {
  latest : Session;
  rendered : Session
}.

Inductive Action : Type :=
| PointerDown (rect : Canvas.DOMRect) (e : Canvas.PointerEvent) (now : R)
| PointerMove (rect : Canvas.DOMRect) (e : Canvas.PointerEvent * R)
    (coalesced : list (Canvas.PointerEvent * R))
| PointerUp                      (* [onPointerUp] and [onPointerLeave] *)
| Undo
| Redo
| Clear
| KeyDown (e : App.KeyboardEvent)
| SetTool (t : ToolType)
| SetSettings (s : StrokeSettings)
| Render.

Definition initial : Session :=
  mkSession PEN App.INITIAL_SETTINGS (Canvas.mkState false [] [] []).

(** The application after its first render. *)
Definition start : Running := mkRunning initial initial.

Definition with_canvas (s : Session) (c : Canvas.State) : Session :=
  mkSession (app_tool s) (app_settings s) c.

Definition write (p : Running) (c : Canvas.State) : Running :=
  mkRunning (with_canvas (latest p) c) (rendered p).

Definition step (a : Action) (p : Running) : result Running :=
  let now_ := app_canvas (latest p) in
  let seen := app_canvas (rendered p) in
  match a with
  | PointerDown rect e now =>
      c <- Canvas.handlePointerDown rect now e now_ ;; ret (write p c)
  | PointerMove rect e coalesced =>
      c <- Canvas.handlePointerMove rect e coalesced now_ ;; ret (write p c)
  | PointerUp =>
      ret (write p
             (Canvas.handlePointerUpFrom (app_settings (rendered p))
                (app_tool (rendered p)) seen now_))
  | Undo => c <- App.handleUndoFrom seen now_ ;; ret (write p c)
  | Redo => c <- App.handleRedoFrom seen now_ ;; ret (write p c)
  | Clear => ret (write p (App.handleClearFrom seen now_))
  | KeyDown e => c <- App.handleKeyDownFrom e seen now_ ;; ret (write p c)
  | SetTool t =>
      ret (mkRunning (mkSession t (app_settings (latest p)) now_) (rendered p))
  | SetSettings st =>
      ret (mkRunning (mkSession (app_tool (latest p)) st now_) (rendered p))
  | Render => ret (mkRunning (latest p) (latest p))
  end.

Fixpoint run (actions : list Action) (p : Running) : result Running :=
  match actions with
  | [] => ret p
  | a :: rest => p' <- step a p ;; run rest p'
  end.

(** A stroke of the history: at least two points, built by the pointer
    handlers. *)
Definition committed (stroke : DrawnStroke) : Prop :=
  (2 <= length (points stroke))%nat /\ Stroke.drawn (points stroke).

(** What every value of the state satisfies. *)
Definition consistent (s : Session) : Prop :=
  let c := app_canvas s in
  (Canvas.isDrawing c = false -> Canvas.currentPoints c = []) /\
  (Canvas.isDrawing c = true -> Stroke.drawn (Canvas.currentPoints c)) /\
  Forall committed (Canvas.history c) /\
  Forall committed (Canvas.redoStack c).

(** What the running application keeps true. *)
Definition sound (p : Running) : Prop :=
  consistent (latest p) /\ consistent (rendered p).

End Session.

(** ** The specification's own vocabulary

    Definitions that follow the words of the specification rather than
    the code; the theorems below compare the two. *)

Module Spec.

(** TaperProfile (section 4.2): the easing factor by which the pressure at
    [index] of [totalPoints] points is multiplied. *)
Definition taperFactor (index totalPoints : nat) : R :=
  let taperLength := Nat.min 5 (totalPoints / 3) in
  if (taperLength =? 0)%nat then 1
  else if (index <? taperLength)%nat then
    1 - (1 - INR index / INR taperLength) ^ 3
  else if (Z.of_nat totalPoints - 1 - Z.of_nat taperLength <? Z.of_nat index)%Z
  then
    1 - (1 - IZR (Z.of_nat totalPoints - 1 - Z.of_nat index)
               / INR taperLength) ^ 3
  else 1.

(** Clamping a value to the interval [[lo, hi]]. *)
Definition clamp (lo hi v : R) : R := Rmax lo (Rmin hi v).

(** PathSegment (section 3): a quadratic curve through [control] to
    [anchor]. *)
Record PathSegment : Type := mkSegment {
  control : Point;
  anchor : Point
}.

Definition midpoint (p1 p2 : Point) : Point :=
  xy ((x p1 + x p2) / 2) ((y p1 + y p2) / 2).

(** PathSerializer (section 4.4): for each index [i] from [1] to
    [len - 1], the segment with control [outline[i]] and anchor the
    midpoint of [outline[i]] and [outline[(i+1) mod len]]. *)
Definition segmentAt (outline : list Point) (i : nat) : PathSegment :=
  let len := length outline in
  let p1 := nth i outline (xy 0 0) in
  let p2 := nth ((i + 1) mod len) outline (xy 0 0) in
  mkSegment p1 (midpoint p1 p2).

Definition serialize (outline : list Point) : list PathSegment :=
  map (segmentAt outline) (seq 1 (length outline - 1)).

Section Render.

Variable toFixed : R -> nat -> string.

Local Open Scope string_scope.

Definition renderStart (p : Point) : string :=
  "M " ++ toFixed (x p) 2 ++ " " ++ toFixed (y p) 2.

Definition renderSegment (s : PathSegment) : string :=
  " Q " ++ toFixed (x (control s)) 2 ++ " " ++ toFixed (y (control s)) 2
    ++ ", " ++ toFixed (x (anchor s)) 2 ++ " " ++ toFixed (y (anchor s)) 2.

(** The starting point, the curve segments in order, and one closing
    instruction. *)
Definition renderPath (start : Point) (segments : list PathSegment) : string :=
  renderStart start
    ++ fold_right String.append EmptyString (map renderSegment segments)
    ++ " Z".

End Render.

(** The number of occurrences of the instruction letter [c] in a path. *)
Fixpoint countLetter (c : Ascii.ascii) (path : string) : nat :=
  match path with
  | EmptyString => 0
  | String a rest => (if Ascii.eqb a c then 1 else 0) + countLetter c rest
  end.

End Spec.

(** ** Proof automation *)

(** Deciding [Rmin], [Rmax] and the zero test on concrete numbers, the
    innermost comparison first. *)
Ltac is_decided t :=
  lazymatch t with
  | context [Rle_dec _ _] => fail
  | context [Req_dec_T _ _] => fail
  | _ => idtac
  end.

Ltac decide_innermost :=
  match goal with
  | |- context [Rle_dec ?a ?b] =>
      is_decided a; is_decided b; destruct (Rle_dec a b)
  | |- context [Req_dec_T ?a ?b] =>
      is_decided a; is_decided b; destruct (Req_dec_T a b)
  end.

Ltac decide_reals :=
  unfold Spec.clamp, Js.min, Js.max, Js.or_num, Js.eqb, Js.ltb, Rmin, Rmax;
  repeat (decide_innermost; try (exfalso; lra));
  try reflexivity; try lra; try (f_equal; lra).

(** * Properties *)

(** ** Number primitives *)

Lemma eqb_eq (a b : R) : Js.eqb a b = true <-> a = b.
Proof.
  unfold Js.eqb. destruct (Req_dec_T a b); split; intros; congruence.
Qed.

Lemma eqb_neq (a b : R) : Js.eqb a b = false <-> a <> b.
Proof.
  unfold Js.eqb. destruct (Req_dec_T a b); split; intros; congruence.
Qed.

Lemma eqb_refl (a : R) : Js.eqb a a = true.
Proof. now apply eqb_eq. Qed.

Lemma div_ok (a b : R) : b <> 0 -> Js.div a b = Ok (a / b).
Proof. intros H. unfold Js.div. now rewrite (proj2 (eqb_neq b 0) H). Qed.

Lemma div_inv (a b q : R) : Js.div a b = Ok q -> b <> 0 /\ q = a / b.
Proof.
  unfold Js.div. destruct (Js.eqb b 0) eqn:E; [discriminate|].
  intros [= <-]. split; [now apply eqb_neq | reflexivity].
Qed.

Lemma div_two (a : R) : Js.div a 2 = Ok (a / 2).
Proof. apply div_ok. lra. Qed.

Lemma at_index_ok {A} (arr : list A) (i : nat) :
  (i < length arr)%nat ->
  exists a, nth_error arr i = Some a /\ Js.at_index arr i = Ok a.
Proof.
  intros H. unfold Js.at_index.
  destruct (nth_error arr i) as [a|] eqn:E.
  - now exists a.
  - apply nth_error_None in E. lia.
Qed.

Lemma at_index_inv {A} (arr : list A) (i : nat) (a : A) :
  Js.at_index arr i = Ok a -> nth_error arr i = Some a.
Proof.
  unfold Js.at_index. destruct (nth_error arr i); [intros [= ->] | discriminate].
  reflexivity.
Qed.

Lemma hypot_nonneg (a b : R) : 0 <= Js.hypot a b.
Proof. apply sqrt_pos. Qed.

Lemma hypot_sqr (a b : R) : Js.hypot a b * Js.hypot a b = a * a + b * b.
Proof. unfold Js.hypot. apply sqrt_sqrt. nra. Qed.

Lemma hypot_zero (a b : R) : Js.hypot a b = 0 <-> a = 0 /\ b = 0.
Proof.
  split.
  - intros H. pose proof (hypot_sqr a b) as S. rewrite H in S. nra.
  - intros [-> ->]. unfold Js.hypot.
    replace (0 * 0 + 0 * 0) with 0 by ring. apply sqrt_0.
Qed.

Lemma hypot_scale (a b k : R) :
  0 <= k -> Js.hypot (a * k) (b * k) = Js.hypot a b * k.
Proof.
  intros Hk. unfold Js.hypot.
  replace (a * k * (a * k) + b * k * (b * k)) with ((a * a + b * b) * (k * k))
    by ring.
  rewrite sqrt_mult by nra. now rewrite sqrt_square.
Qed.

Lemma hypot_neg_l (a b : R) : Js.hypot (- a) b = Js.hypot a b.
Proof. unfold Js.hypot. f_equal. ring. Qed.

Lemma hypot_neg_r (a b : R) : Js.hypot a (- b) = Js.hypot a b.
Proof. unfold Js.hypot. f_equal. ring. Qed.

Lemma hypot_comm (a b : R) : Js.hypot a b = Js.hypot b a.
Proof. unfold Js.hypot. f_equal. ring. Qed.

(** ** [normalize] *)

(** [normalize] never faults; a vector of length zero is sent to
    [(0,0)] and every other vector to a vector of length one. *)
Lemma normalize_spec (a : Point) :
  exists v, Ink.normalize a = Ok v /\
    (Js.hypot (x a) (y a) = 0 -> v = xy 0 0) /\
    (Js.hypot (x a) (y a) <> 0 -> Js.hypot (x v) (y v) = 1).
Proof.
  unfold Ink.normalize. cbv zeta.
  destruct (Js.eqb (Js.hypot (x a) (y a)) 0) eqn:E.
  - apply eqb_eq in E. exists (xy 0 0). repeat split; auto. congruence.
  - apply eqb_neq in E. rewrite !div_ok by assumption. cbn [bind ret].
    eexists; split; [reflexivity|]. split; [congruence|]. intros _. cbn [x y xy].
    unfold Rdiv. rewrite hypot_scale.
    + now apply Rinv_r.
    + left. apply Rinv_0_lt_compat. pose proof (hypot_nonneg (x a) (y a)). lra.
Qed.

Lemma normalize_total (a : Point) : succeeds (Ink.normalize a).
Proof. destruct (normalize_spec a) as (v & H & _). now exists v. Qed.

(** The result of [normalize] is the zero vector or a unit vector. *)
Lemma normalize_cases (a v : Point) :
  Ink.normalize a = Ok v ->
  v = xy 0 0 \/ Js.hypot (x v) (y v) = 1.
Proof.
  intros H. destruct (normalize_spec a) as (v' & H' & Hz & Hu).
  rewrite H in H'. injection H' as <-.
  destruct (Req_dec_T (Js.hypot (x a) (y a)) 0); auto.
Qed.

(** ** The loop combinator *)

Lemma for_each_app {S : Type} (body : nat -> S -> result S)
  (is1 is2 : list nat) (st : S) :
  Ink.for_each (is1 ++ is2) body st =
  bind (Ink.for_each is1 body st) (Ink.for_each is2 body).
Proof.
  revert st. induction is1 as [|i is1 IH]; intros st; cbn; [reflexivity|].
  destruct (body i st); cbn; auto.
Qed.

Lemma for_each_snoc {S : Type} (body : nat -> S -> result S)
  (from k : nat) (st : S) :
  Ink.for_each (seq from (Datatypes.S k)) body st =
  bind (Ink.for_each (seq from k) body st) (body (from + k)%nat).
Proof.
  rewrite seq_S, for_each_app. destruct (Ink.for_each (seq from k) body st);
    cbn; [|reflexivity].
  now destruct (body (from + k)%nat a).
Qed.

(** ** The taper *)

Lemma taperLength_le (len : nat) : (2 * Ink.taperLength len <= len)%nat.
Proof.
  unfold Ink.taperLength.
  pose proof (Nat.div_mod_eq len 3). pose proof (Nat.le_min_r 5 (len / 3)). lia.
Qed.

Lemma taperLength_pos (len : nat) : (3 <= len)%nat -> (1 <= Ink.taperLength len)%nat.
Proof.
  intros H. unfold Ink.taperLength.
  assert (1 <= len / 3)%nat by (apply Nat.div_le_lower_bound; lia). lia.
Qed.

(** The code's tapering multiplies the pressure by the specification's
    factor, at every index of the stroke, and never faults there. *)
Lemma taper_refines (len i : nat) (p : R) :
  (i < len)%nat -> Ink.taper len i p = Ok (p * Spec.taperFactor i len).
Proof.
  intros Hi. unfold Ink.taper, Spec.taperFactor. cbv zeta.
  fold (Ink.taperLength len). set (tl := Ink.taperLength len).
  pose proof (taperLength_le len) as Hle. fold tl in Hle.
  destruct (Nat.eqb_spec tl 0) as [E0|N0].
  - rewrite E0. cbn [Nat.ltb Nat.leb].
    destruct (Z.ltb_spec (Z.of_nat len - 1 - Z.of_nat 0) (Z.of_nat i)); [lia|].
    unfold ret. f_equal. ring.
  - assert (INR tl <> 0) by (apply not_0_INR; assumption).
    destruct (Nat.ltb_spec i tl).
    + rewrite div_ok by assumption. reflexivity.
    + destruct (Z.ltb_spec (Z.of_nat len - 1 - Z.of_nat tl) (Z.of_nat i)).
      * rewrite div_ok by assumption. reflexivity.
      * unfold ret. f_equal. ring.
Qed.

(** ** The outline loop *)

Section OutlineLoop.

Variable points : list Point.
Variable options : StrokeSettings.

Let n := length points.

(** What one iteration binds, spelled out; the iteration never faults at
    an index of the stroke. *)
Lemma locals_spec (i : nat) (st : Ink.LoopState) :
  (i < n)%nat ->
  exists l, Ink.locals points options i st = Ok l /\
    nth_error points i = Some (Ink.curr l) /\
    Ink.l_pressure l =
      Ink.lerp (Ink.prevPressure st)
        (Js.nullish (pressure (Ink.curr l)) 0.5 * Spec.taperFactor i n) 0.5 /\
    Ink.width l =
      size options * (1 - thinning options * (1 - Ink.l_pressure l)) /\
    ((S i < n)%nat ->
       exists next, nth_error points (S i) = Some next /\
         Ink.normalize (Ink.sub next (Ink.curr l)) = Ok (Ink.vector l)) /\
    ((S i = n)%nat -> Ink.vector l = Ink.prevVector st) /\
    Ink.normalize (Ink.add (Ink.vector l) (Ink.prevVector st))
      = Ok (Ink.smoothVector l) /\
    Ink.offset l = Ink.mul (Ink.perp (Ink.smoothVector l)) (Ink.width l / 2).
Proof.
  intros Hi. unfold Ink.locals.
  destruct (at_index_ok points i Hi) as (c & Hc & ->). cbn [bind].
  rewrite taper_refines by assumption. cbn [bind].
  destruct (Z.ltb_spec (Z.of_nat i) (Z.of_nat (length points) - 1)) as [Hlt|Hge].
  - assert (Hn : (i + 1 < length points)%nat) by lia.
    destruct (at_index_ok points (i + 1) Hn) as (nx & Hnx & ->). cbn [bind].
    destruct (normalize_total (Ink.sub nx c)) as (v & Hv). rewrite Hv. cbn [bind].
    destruct (normalize_total (Ink.add v (Ink.prevVector st))) as (sv & Hsv).
    rewrite Hsv. cbn [bind]. rewrite div_two. cbn [bind ret].
    eexists; split; [reflexivity|].
    cbn [Ink.curr Ink.l_pressure Ink.width Ink.vector Ink.smoothVector Ink.offset].
    repeat split; auto.
    + intros _. exists nx. split; [|assumption].
      now replace (S i) with (i + 1)%nat by lia.
    + intros E. fold n in Hn. lia.
  - cbn [bind ret].
    destruct (normalize_total (Ink.add (Ink.prevVector st) (Ink.prevVector st)))
      as (sv & Hsv).
    rewrite Hsv. cbn [bind]. rewrite div_two. cbn [bind ret].
    eexists; split; [reflexivity|].
    cbn [Ink.curr Ink.l_pressure Ink.width Ink.vector Ink.smoothVector Ink.offset].
    repeat split; auto.
    intros Hlt. fold n in Hge. unfold n in *. lia.
Qed.

Lemma iteration_spec (i : nat) (st : Ink.LoopState) :
  (i < n)%nat ->
  exists l, Ink.locals points options i st = Ok l /\
    Ink.iteration points options i st =
      Ok (Ink.mkLoop (Ink.l_pressure l) (Ink.vector l)
            (Ink.leftPts st ++ [Ink.sub (Ink.curr l) (Ink.offset l)])
            (Ink.rightPts st ++ [Ink.add (Ink.curr l) (Ink.offset l)])).
Proof.
  intros Hi. destruct (locals_spec i st Hi) as (l & Hl & _).
  exists l. split; [assumption|]. unfold Ink.iteration. now rewrite Hl.
Qed.

(** The state on entry: both lists empty, the seeds as the code computes
    them. *)
Lemma initial_spec :
  (2 <= n)%nat ->
  exists p0 p1 v, nth_error points 0 = Some p0 /\ nth_error points 1 = Some p1 /\
    Ink.normalize (Ink.sub p1 p0) = Ok v /\
    Ink.initial points = Ok (Ink.mkLoop (Js.or_opt (pressure p0) 0.5) v [] []).
Proof.
  intros Hn. unfold Ink.initial.
  destruct (at_index_ok points 0) as (p0 & H0 & ->); [fold n; lia|].
  destruct (at_index_ok points 1) as (p1 & H1 & ->); [fold n; lia|].
  cbn [bind]. destruct (normalize_total (Ink.sub p1 p0)) as (v & Hv).
  rewrite Hv. cbn [bind ret]. now exists p0, p1, v.
Qed.

Lemma stateAt_S (k : nat) :
  Ink.stateAt points options (S k) =
  bind (Ink.stateAt points options k) (Ink.iteration points options k).
Proof.
  unfold Ink.stateAt. destruct (Ink.initial points) as [st0|e]; cbn [bind];
    [|reflexivity].
  now rewrite for_each_snoc.
Qed.

(** The loop reaches every iteration without a fault, having pushed one
    point on each side per completed iteration. *)
Lemma stateAt_total (k : nat) :
  (2 <= n)%nat -> (k <= n)%nat ->
  exists st, Ink.stateAt points options k = Ok st /\
    length (Ink.leftPts st) = k /\ length (Ink.rightPts st) = k.
Proof.
  intros Hn. induction k as [|k IH]; intros Hk.
  - destruct (initial_spec Hn) as (p0 & p1 & v & _ & _ & _ & Hi).
    unfold Ink.stateAt. rewrite Hi. cbn. eexists; split; [reflexivity|]. auto.
  - destruct IH as (st & Hst & Hl & Hr); [lia|].
    rewrite stateAt_S, Hst. cbn [bind].
    destruct (iteration_spec k st) as (l & _ & ->); [lia|].
    eexists; split; [reflexivity|]. cbn. rewrite !length_app. cbn. lia.
Qed.

(** The trace of the loop: the point pushed on each side by iteration [i]
    is still at position [i] of its list at any later moment. *)
Lemma stateAt_trace (k : nat) (st : Ink.LoopState) :
  (2 <= n)%nat -> (k <= n)%nat ->
  Ink.stateAt points options k = Ok st ->
  forall i, (i < k)%nat ->
  exists st_i l,
    Ink.stateAt points options i = Ok st_i /\
    Ink.locals points options i st_i = Ok l /\
    nth_error (Ink.leftPts st) i = Some (Ink.sub (Ink.curr l) (Ink.offset l)) /\
    nth_error (Ink.rightPts st) i = Some (Ink.add (Ink.curr l) (Ink.offset l)).
Proof.
  intros Hn. revert st. induction k as [|k IH]; intros st Hk Hst i Hi; [lia|].
  destruct (stateAt_total k Hn) as (st_k & Hk' & Hl & Hr); [lia|].
  rewrite stateAt_S, Hk' in Hst. cbn [bind] in Hst.
  destruct (iteration_spec k st_k) as (l & Hloc & Hit); [lia|].
  rewrite Hit in Hst. injection Hst as <-. cbn [Ink.leftPts Ink.rightPts].
  destruct (Nat.eq_dec i k) as [->|Hne].
  - exists st_k, l. repeat split; auto.
    + rewrite nth_error_app2 by lia. rewrite Hl, Nat.sub_diag. reflexivity.
    + rewrite nth_error_app2 by lia. rewrite Hr, Nat.sub_diag. reflexivity.
  - destruct (IH st_k) with (i := i) as (st_i & l_i & H1 & H2 & H3 & H4);
      [lia | assumption | lia |].
    exists st_i, l_i. repeat split; auto.
    + rewrite nth_error_app1 by lia. assumption.
    + rewrite nth_error_app1 by lia. assumption.
Qed.

(** The outline is the left list followed by the reversed right list of
    the state in which the loop ends. *)
Lemma outline_spec :
  (2 <= n)%nat ->
  exists st, Ink.stateAt points options n = Ok st /\
    length (Ink.leftPts st) = n /\ length (Ink.rightPts st) = n /\
    Ink.getStrokeOutlinePoints points options
      = Ok (Ink.leftPts st ++ rev (Ink.rightPts st)).
Proof.
  intros Hn. destruct (stateAt_total n Hn) as (st & Hst & Hl & Hr); [lia|].
  exists st. repeat split; auto.
  unfold Ink.getStrokeOutlinePoints. fold n.
  destruct (Nat.ltb_spec n 2); [lia|].
  unfold Ink.stateAt in Hst. fold n in Hst.
  destruct (Ink.initial points); cbn [bind] in *; [|discriminate].
  now rewrite Hst.
Qed.

End OutlineLoop.

(** ** The outline, point by point *)

Section Outline.

Variable points : list Point.
Variable options : StrokeSettings.

Let n := length points.

(** For a stroke of at least two points the builder returns an outline
    of [2 * n] points; the point at [i] and the point at [2n - 1 - i] are
    the left and the right offset point that iteration [i] pushed. *)
Lemma outline_points :
  (2 <= n)%nat ->
  exists outline,
    Ink.getStrokeOutlinePoints points options = Ok outline /\
    length outline = (2 * n)%nat /\
    forall i, (i < n)%nat ->
    exists st_i l,
      Ink.stateAt points options i = Ok st_i /\
      Ink.locals points options i st_i = Ok l /\
      nth_error outline i = Some (Ink.sub (Ink.curr l) (Ink.offset l)) /\
      nth_error outline (2 * n - 1 - i)
        = Some (Ink.add (Ink.curr l) (Ink.offset l)).
Proof.
  intros Hn. destruct (outline_spec points options Hn) as (st & Hst & Hl & Hr & Ho).
  fold n in Hst, Hl, Hr.
  exists (Ink.leftPts st ++ rev (Ink.rightPts st)). split; [assumption|]. split.
  - rewrite length_app, length_rev. lia.
  - intros i Hi.
    destruct (stateAt_trace points options n st Hn (Nat.le_refl _) Hst i Hi)
      as (st_i & l & H1 & H2 & H3 & H4).
    exists st_i, l. repeat split; auto.
    + rewrite nth_error_app1 by lia. assumption.
    + rewrite nth_error_app2 by lia. rewrite nth_error_rev, Hl, Hr.
      destruct (Nat.ltb_spec (2 * n - 1 - i - n) n); [|lia].
      replace (n - S (2 * n - 1 - i - n))%nat with i by lia. assumption.
Qed.

End Outline.

(** C1. [getStrokeOutlinePoints] returns the empty sequence for a list
    of fewer than 2 points, and otherwise an outline of exactly twice as
    many points as the input has. *)
Theorem C1_outline_length (points : list Point) (options : StrokeSettings) :
  ((length points < 2)%nat ->
     Ink.getStrokeOutlinePoints points options = Ok []) /\
  ((2 <= length points)%nat ->
     exists outline,
       Ink.getStrokeOutlinePoints points options = Ok outline /\
       length outline = (2 * length points)%nat).
Proof.
  split.
  - intros H. unfold Ink.getStrokeOutlinePoints.
    destruct (Nat.ltb_spec (length points) 2); [reflexivity | lia].
  - intros H. destruct (outline_points points options H) as (o & Ho & Hlen & _).
    now exists o.
Qed.

Lemma C1_outline_length_witness :
  Ink.getStrokeOutlinePoints [xy 3 4] (mkSettings 14 0.75 0.5 "#1c1917" true)
    = Ok [] /\
  exists outline,
    Ink.getStrokeOutlinePoints [xy 0 0; xy 3 4; xy 6 8]
      (mkSettings 14 0.75 0.5 "#1c1917" true) = Ok outline /\
    length outline = 6%nat.
Proof.
  split.
  - apply (C1_outline_length [xy 3 4]). simpl. lia.
  - apply (C1_outline_length [xy 0 0; xy 3 4; xy 6 8]). simpl. lia.
Defined.

(** C10. In the outline of a stroke of [n >= 2] points, the points at
    [i] and at [2n - 1 - i] add up to twice the input point [i], in both
    coordinates: the input point is the midpoint of its two offset
    points. *)
Theorem C10_offsets_symmetric (points : list Point) (options : StrokeSettings) :
  (2 <= length points)%nat ->
  exists outline,
    Ink.getStrokeOutlinePoints points options = Ok outline /\
    forall i, (i < length points)%nat ->
    exists p l r,
      nth_error points i = Some p /\
      nth_error outline i = Some l /\
      nth_error outline (2 * length points - 1 - i) = Some r /\
      x l + x r = 2 * x p /\
      y l + y r = 2 * y p.
Proof.
  intros Hn. destruct (outline_points points options Hn) as (o & Ho & _ & Hpts).
  exists o. split; [assumption|]. intros i Hi.
  destruct (Hpts i Hi) as (st_i & loc & _ & Hloc & Hl & Hr).
  destruct (locals_spec points options i st_i Hi) as (loc' & Hloc' & Hc & _).
  rewrite Hloc in Hloc'. injection Hloc' as <-.
  exists (Ink.curr loc), (Ink.sub (Ink.curr loc) (Ink.offset loc)),
    (Ink.add (Ink.curr loc) (Ink.offset loc)).
  repeat split; auto; cbn; ring.
Qed.

Lemma C10_offsets_symmetric_witness :
  exists outline,
    Ink.getStrokeOutlinePoints [xy 0 0; xy 3 4]
      (mkSettings 14 0.75 0.5 "#1c1917" true) = Ok outline /\
    forall i, (i < 2)%nat ->
    exists p l r,
      nth_error [xy 0 0; xy 3 4] i = Some p /\
      nth_error outline i = Some l /\
      nth_error outline (2 * 2 - 1 - i) = Some r /\
      x l + x r = 2 * x p /\
      y l + y r = 2 * y p.
Proof.
  apply (C10_offsets_symmetric [xy 0 0; xy 3 4]). simpl. lia.
Defined.

(** ** Offsets and distances *)

Lemma dist_sub_offset (c o : Point) :
  Ink.dist (Ink.sub c o) c = Js.hypot (x o) (y o).
Proof.
  unfold Ink.dist, Ink.sub. cbn [x y xy].
  replace (x c - x o - x c) with (- x o) by ring.
  replace (y c - y o - y c) with (- y o) by ring.
  now rewrite hypot_neg_l, hypot_neg_r.
Qed.

Lemma dist_add_offset (c o : Point) :
  Ink.dist (Ink.add c o) c = Js.hypot (x o) (y o).
Proof.
  unfold Ink.dist, Ink.add. cbn [x y xy]. f_equal; ring.
Qed.

(** The offset built from a direction [v] and a half-width [h >= 0] is
    as long as [v], scaled by [h]. *)
Lemma hypot_offset (v : Point) (h : R) :
  0 <= h ->
  Js.hypot (x (Ink.mul (Ink.perp v) h)) (y (Ink.mul (Ink.perp v) h))
  = Js.hypot (x v) (y v) * h.
Proof.
  intros Hh. unfold Ink.mul, Ink.perp. cbn [x y xy].
  rewrite hypot_scale by assumption. now rewrite hypot_neg_r, hypot_comm.
Qed.

(** With [thinning = 0] the width does not depend on the pressure. *)
Lemma width_thinning_zero (points : list Point) (options : StrokeSettings)
  (i : nat) (st : Ink.LoopState) (l : Ink.Locals) :
  (i < length points)%nat -> thinning options = 0 ->
  Ink.locals points options i st = Ok l -> Ink.width l = size options.
Proof.
  intros Hi Ht Hl.
  destruct (locals_spec points options i st Hi) as (l' & Hl' & _ & _ & Hw & _).
  rewrite Hl in Hl'. injection Hl' as <-. rewrite Hw, Ht. ring.
Qed.

(** C6. With [thinning = 0], on any stroke of at least 2 points and
    whatever the pressures are, the width computed at every point is
    [size], and the two outline points of every input point whose smoothed
    direction vector is not the zero vector lie at distance exactly
    [size / 2] from it ([size] being a width, that is, not negative). *)
Theorem C6_thinning_zero_constant_width
  (points : list Point) (options : StrokeSettings) :
  (2 <= length points)%nat ->
  thinning options = 0 ->
  exists outline,
    Ink.getStrokeOutlinePoints points options = Ok outline /\
    forall i, (i < length points)%nat ->
    exists st_i loc p l r,
      Ink.stateAt points options i = Ok st_i /\
      Ink.locals points options i st_i = Ok loc /\
      nth_error points i = Some p /\
      nth_error outline i = Some l /\
      nth_error outline (2 * length points - 1 - i) = Some r /\
      Ink.width loc = size options /\
      (0 <= size options -> Ink.smoothVector loc <> xy 0 0 ->
         Ink.dist l p = size options / 2 /\ Ink.dist r p = size options / 2).
Proof.
  intros Hn Ht.
  destruct (outline_points points options Hn) as (o & Ho & _ & Hpts).
  exists o. split; [assumption|]. intros i Hi.
  destruct (Hpts i Hi) as (st_i & loc & Hst & Hloc & Hl & Hr).
  pose proof (width_thinning_zero points options i st_i loc Hi Ht Hloc) as Hw.
  destruct (locals_spec points options i st_i Hi)
    as (loc' & Hloc' & Hc & _ & _ & _ & _ & Hsv & Hoff).
  rewrite Hloc in Hloc'. injection Hloc' as <-.
  exists st_i, loc, (Ink.curr loc), (Ink.sub (Ink.curr loc) (Ink.offset loc)),
    (Ink.add (Ink.curr loc) (Ink.offset loc)).
  repeat (split; [now auto|]). intros Hs Hnz.
  destruct (normalize_cases _ _ Hsv) as [E|E]; [contradiction|]. split.
  - rewrite dist_sub_offset, Hoff, hypot_offset by (rewrite Hw; lra).
    rewrite E, Hw. ring.
  - rewrite dist_add_offset, Hoff, hypot_offset by (rewrite Hw; lra).
    rewrite E, Hw. ring.
Qed.

Lemma C6_thinning_zero_constant_width_witness :
  exists outline,
    Ink.getStrokeOutlinePoints [mkPoint 0 0 (Some 1) None; mkPoint 3 4 None None]
      (mkSettings 10 0 0.5 "#1c1917" true) = Ok outline /\
    forall i, (i < 2)%nat ->
    exists st_i loc p l r,
      Ink.stateAt [mkPoint 0 0 (Some 1) None; mkPoint 3 4 None None]
        (mkSettings 10 0 0.5 "#1c1917" true) i = Ok st_i /\
      Ink.locals [mkPoint 0 0 (Some 1) None; mkPoint 3 4 None None]
        (mkSettings 10 0 0.5 "#1c1917" true) i st_i = Ok loc /\
      nth_error [mkPoint 0 0 (Some 1) None; mkPoint 3 4 None None] i = Some p /\
      nth_error outline i = Some l /\
      nth_error outline (2 * 2 - 1 - i) = Some r /\
      Ink.width loc = 10 /\
      (0 <= 10 -> Ink.smoothVector loc <> xy 0 0 ->
         Ink.dist l p = 10 / 2 /\ Ink.dist r p = 10 / 2).
Proof.
  apply (C6_thinning_zero_constant_width
           [mkPoint 0 0 (Some 1) None; mkPoint 3 4 None None]
           (mkSettings 10 0 0.5 "#1c1917" true)).
  - simpl. lia.
  - reflexivity.
Defined.

(** ** The taper profile *)

Section TaperProfile.

Variable N : nat.

Let tl := Nat.min 5 (N / 3).

Lemma taperFactor_leading (i : nat) :
  (i < tl)%nat ->
  Spec.taperFactor i N = 1 - (1 - INR i / INR tl) ^ 3.
Proof.
  intros Hi. unfold Spec.taperFactor. cbv zeta. fold tl.
  destruct (Nat.eqb_spec tl 0); [lia|].
  destruct (Nat.ltb_spec i tl); [reflexivity | lia].
Qed.

Lemma taperFactor_trailing (i : nat) :
  (N - 1 - tl < i)%nat -> (i < N)%nat ->
  Spec.taperFactor i N = 1 - (1 - INR (N - 1 - i) / INR tl) ^ 3.
Proof.
  intros Hi HN. unfold Spec.taperFactor. cbv zeta. fold tl.
  pose proof (taperLength_le N) as Hle. unfold Ink.taperLength in Hle. fold tl in Hle.
  destruct (Nat.eqb_spec tl 0); [lia|].
  destruct (Nat.ltb_spec i tl); [lia|].
  destruct (Z.ltb_spec (Z.of_nat N - 1 - Z.of_nat tl) (Z.of_nat i)); [|lia].
  replace (Z.of_nat N - 1 - Z.of_nat i)%Z with (Z.of_nat (N - 1 - i)) by lia.
  now rewrite <- INR_IZR_INZ.
Qed.

Lemma taperFactor_middle (i : nat) :
  (tl <= i)%nat -> (i <= N - 1 - tl)%nat -> Spec.taperFactor i N = 1.
Proof.
  intros Hlo Hhi. unfold Spec.taperFactor. cbv zeta. fold tl.
  destruct (Nat.eqb_spec tl 0); [reflexivity|].
  destruct (Nat.ltb_spec i tl); [lia|].
  destruct (Z.ltb_spec (Z.of_nat N - 1 - Z.of_nat tl) (Z.of_nat i)); [lia|].
  reflexivity.
Qed.

(** The cubic ease-out grows with its argument on [[0, 1]]. *)
Lemma easeOut_mono (s t : R) :
  0 <= s -> s <= t -> t <= 1 -> 1 - (1 - s) ^ 3 <= 1 - (1 - t) ^ 3.
Proof.
  intros H0 Hst H1.
  assert ((1 - t) ^ 3 <= (1 - s) ^ 3) by (apply pow_incr; lra). lra.
Qed.

Lemma ratio_bounds (a b : nat) :
  (a <= b)%nat -> (0 < tl)%nat -> (b <= tl)%nat ->
  0 <= INR a / INR tl /\ INR a / INR tl <= INR b / INR tl /\
  INR b / INR tl <= 1.
Proof.
  intros Hab Htl Hb.
  assert (0 < INR tl) by (apply lt_0_INR; lia).
  assert (0 <= INR a) by apply pos_INR.
  assert (INR a <= INR b) by (apply le_INR; lia).
  assert (INR b <= INR tl) by (apply le_INR; lia).
  repeat split.
  - apply Rmult_le_pos; [assumption|]. left. now apply Rinv_0_lt_compat.
  - apply Rmult_le_compat_r; [|assumption]. left. now apply Rinv_0_lt_compat.
  - apply Rmult_le_reg_r with (INR tl); [assumption|].
    unfold Rdiv. rewrite Rmult_assoc, Rinv_l by lra. lra.
Qed.

End TaperProfile.

(** C5. For [N >= 3] points, with [taperLength = min(5, floor(N / 3))]:
    the code multiplies the pressure at index [i] by [taperFactor i N];
    that factor is [0] at index [0] and at index [N - 1], does not
    decrease over the leading window (indices below [taperLength]), does
    not increase over the trailing window (indices above
    [N - 1 - taperLength]), and is [1] everywhere between the two. *)
Theorem C5_taper_profile (N : nat) :
  (3 <= N)%nat ->
  let taperLength := Nat.min 5 (N / 3) in
  Ink.taperLength N = taperLength /\
  (forall i p, (i < N)%nat ->
     Ink.taper N i p = Ok (p * Spec.taperFactor i N)) /\
  Spec.taperFactor 0 N = 0 /\
  Spec.taperFactor (N - 1) N = 0 /\
  (forall i j, (i <= j)%nat -> (j < taperLength)%nat ->
     Spec.taperFactor i N <= Spec.taperFactor j N) /\
  (forall i j, (N - 1 - taperLength < i)%nat -> (i <= j)%nat -> (j < N)%nat ->
     Spec.taperFactor j N <= Spec.taperFactor i N) /\
  (forall i, (taperLength <= i)%nat -> (i <= N - 1 - taperLength)%nat ->
     Spec.taperFactor i N = 1).
Proof.
  intros HN tl.
  pose proof (taperLength_pos N HN) as Hpos.
  pose proof (taperLength_le N) as Hle.
  unfold Ink.taperLength in Hpos, Hle. fold tl in Hpos, Hle.
  assert (Htl : INR tl <> 0) by (apply not_0_INR; lia).
  split; [reflexivity|].
  split; [intros i p Hi; now apply taper_refines|].
  split.
  { rewrite taperFactor_leading by (fold tl; lia). fold tl.
    change (INR 0) with 0. field. assumption. }
  split.
  { rewrite taperFactor_trailing by (fold tl; lia). fold tl.
    replace (N - 1 - (N - 1))%nat with 0%nat by lia.
    change (INR 0) with 0. field. assumption. }
  split.
  { intros i j Hij Hj.
    rewrite !taperFactor_leading by (fold tl; lia). fold tl.
    destruct (ratio_bounds N i j) as (H1 & H2 & H3); try (fold tl; lia).
    fold tl in H1, H2, H3. now apply easeOut_mono. }
  split.
  { intros i j Hi Hij Hj.
    rewrite !taperFactor_trailing by (fold tl; lia). fold tl.
    destruct (ratio_bounds N (N - 1 - j) (N - 1 - i)) as (H1 & H2 & H3);
      try (fold tl; lia).
    fold tl in H1, H2, H3. now apply easeOut_mono. }
  intros i Hlo Hhi. apply taperFactor_middle; assumption.
Qed.

Lemma C5_taper_profile_witness :
  Ink.taperLength 16 = 5%nat /\
  Spec.taperFactor 0 16 = 0 /\
  Spec.taperFactor 15 16 = 0 /\
  Spec.taperFactor 2 16 <= Spec.taperFactor 4 16 /\
  Spec.taperFactor 14 16 <= Spec.taperFactor 11 16 /\
  Spec.taperFactor 7 16 = 1.
Proof.
  assert (H16 : (3 <= 16)%nat) by lia.
  destruct (C5_taper_profile 16 H16) as (H1 & _ & H3 & H4 & H5 & H6 & H7).
  refine (conj H1 (conj H3 (conj H4 (conj _ (conj _ _))))).
  - apply H5; simpl; lia.
  - apply H6; simpl; lia.
  - apply H7; simpl; lia.
Defined.

(** ** The path serializer *)

Lemma string_app_assoc (a b c : string) :
  ((a ++ b) ++ c)%string = (a ++ (b ++ c))%string.
Proof. induction a as [|ch a IH]; cbn; [reflexivity | now rewrite IH]. Qed.

Lemma string_app_nil_r (a : string) : (a ++ EmptyString)%string = a.
Proof. induction a as [|ch a IH]; cbn; [reflexivity | now rewrite IH]. Qed.

Lemma at_index_nth {A} (arr : list A) (i : nat) (d : A) :
  (i < length arr)%nat -> Js.at_index arr i = Ok (nth i arr d).
Proof.
  intros H. unfold Js.at_index. now rewrite (nth_error_nth' arr d H).
Qed.

Section Serializer.

Variable toFixed : R -> nat -> string.
Variable outline : list Point.

Let len := length outline.

Lemma appendCurve_spec (i : nat) (d : string) :
  (i < len)%nat ->
  Ink.appendCurve toFixed outline len i d
  = Ok (d ++ Spec.renderSegment toFixed (Spec.segmentAt outline i))%string.
Proof.
  intros Hi. unfold Ink.appendCurve.
  rewrite (at_index_nth outline i (xy 0 0)) by assumption. cbn [bind].
  rewrite (at_index_nth outline ((i + 1) mod len) (xy 0 0))
    by (apply Nat.mod_upper_bound; fold len; lia).
  cbn [bind]. rewrite !div_two. reflexivity.
Qed.

Lemma curves_spec (k : nat) (d : string) :
  (k < len)%nat ->
  Ink.for_each (seq 1 k) (Ink.appendCurve toFixed outline len) d
  = Ok (d ++ fold_right String.append EmptyString
               (map (Spec.renderSegment toFixed) (map (Spec.segmentAt outline) (seq 1 k))))%string.
Proof.
  induction k as [|k IH]; intros Hk.
  - cbn. now rewrite string_app_nil_r.
  - rewrite for_each_snoc, IH by lia. cbn [bind].
    rewrite appendCurve_spec by lia. f_equal.
    rewrite seq_S, !map_app, fold_right_app. cbn [map fold_right].
    rewrite string_app_nil_r, string_app_assoc. f_equal.
    generalize (map (Spec.renderSegment toFixed) (map (Spec.segmentAt outline) (seq 1 k))).
    intros l. induction l as [|s l IHl]; cbn [fold_right];
      [reflexivity | now rewrite string_app_assoc, IHl].
Qed.

End Serializer.

Lemma countLetter_app (c : Ascii.ascii) (a b : string) :
  Spec.countLetter c (a ++ b)
  = (Spec.countLetter c a + Spec.countLetter c b)%nat.
Proof.
  induction a as [|ch a IH]; cbn [String.append Spec.countLetter];
    [reflexivity | rewrite IH; lia].
Qed.

(** What [getSvgPathFromStroke] returns on a non-empty outline is the
    rendering of the specification's segments. *)
Lemma getSvgPathFromStroke_refines (toFixed : R -> nat -> string)
  (outline : list Point) (start : Point) :
  nth_error outline 0 = Some start ->
  Ink.getSvgPathFromStroke toFixed outline
  = Ok (Spec.renderPath toFixed start (Spec.serialize outline)).
Proof.
  intros Hstart.
  assert (Hlen : (0 < length outline)%nat)
    by (destruct outline; [discriminate | cbn; lia]).
  unfold Ink.getSvgPathFromStroke.
  destruct (Nat.eqb_spec (length outline) 0); [lia|].
  unfold Js.at_index at 1. rewrite Hstart. cbn [bind].
  rewrite curves_spec by lia. cbn [bind]. unfold ret. f_equal.
  unfold Spec.renderPath, Spec.renderStart, Spec.serialize.
  now rewrite !string_app_assoc.
Qed.

(** Counting an instruction letter [c] that no rendered number contains:
    the rendered path has as many of them as its fixed text has. *)
Lemma renderPath_count (toFixed : R -> nat -> string) (c : Ascii.ascii)
  (start : Point) (segments : list Spec.PathSegment) :
  (forall v digits, Spec.countLetter c (toFixed v digits) = 0%nat) ->
  Spec.countLetter c (Spec.renderPath toFixed start segments)
  = (Spec.countLetter c "M  "
     + length segments * Spec.countLetter c " Q  ,  "
     + Spec.countLetter c " Z")%nat.
Proof.
  intros Hnum. unfold Spec.renderPath, Spec.renderStart.
  rewrite !countLetter_app, !Hnum.
  assert (Hsegs : Spec.countLetter c
            (fold_right String.append EmptyString
               (map (Spec.renderSegment toFixed) segments))
          = (length segments * Spec.countLetter c " Q  ,  ")%nat).
  { induction segments as [|sg segments IH]; [reflexivity|].
    cbn [map fold_right length Nat.mul]. rewrite countLetter_app, IH.
    unfold Spec.renderSegment. rewrite !countLetter_app, !Hnum.
    cbn [Spec.countLetter]. lia. }
  rewrite Hsegs. cbn [Spec.countLetter]. lia.
Qed.

(** C2. On the empty outline the serializer yields the empty path.  On
    an outline of length [L >= 1] it yields the starting point, then
    exactly [L - 1] curve segments, then one closing instruction; the
    segment for index [i] ([1 <= i <= L - 1]) has control point
    [outline[i]] and anchor the midpoint of [outline[i]] and
    [outline[(i + 1) mod L]].  Read off the emitted string: as long as
    printed numbers contain no instruction letter, it has exactly
    [L - 1] letters [Q] and one letter [Z]. *)
Theorem C2_serializer_segments (toFixed : R -> nat -> string)
  (outline : list Point) :
  (outline = [] ->
     Ink.getSvgPathFromStroke toFixed outline = Ok EmptyString) /\
  (forall start, nth_error outline 0 = Some start ->
     Ink.getSvgPathFromStroke toFixed outline
       = Ok (Spec.renderPath toFixed start (Spec.serialize outline)) /\
     length (Spec.serialize outline) = (length outline - 1)%nat /\
     (forall i, (1 <= i)%nat -> (i <= length outline - 1)%nat ->
      exists p1 p2,
        nth_error outline i = Some p1 /\
        nth_error outline ((i + 1) mod length outline) = Some p2 /\
        nth_error (Spec.serialize outline) (i - 1)
          = Some (Spec.mkSegment p1 (Spec.midpoint p1 p2))) /\
     ((forall v digits, Spec.countLetter "Q" (toFixed v digits) = 0%nat) ->
      (forall v digits, Spec.countLetter "Z" (toFixed v digits) = 0%nat) ->
      exists d,
        Ink.getSvgPathFromStroke toFixed outline = Ok d /\
        Spec.countLetter "Q" d = (length outline - 1)%nat /\
        Spec.countLetter "Z" d = 1%nat)).
Proof.
  split.
  - intros ->. reflexivity.
  - intros start Hstart.
    assert (Hlen : (0 < length outline)%nat)
      by (destruct outline; [discriminate | cbn; lia]).
    pose proof (getSvgPathFromStroke_refines toFixed outline start Hstart) as Href.
    assert (Hcount : length (Spec.serialize outline) = (length outline - 1)%nat)
      by (unfold Spec.serialize; rewrite length_map, length_seq; reflexivity).
    split; [exact Href|]. split; [exact Hcount|]. split.
    + intros i Hlo Hhi.
      assert (Hm : ((i + 1) mod length outline < length outline)%nat)
        by (apply Nat.mod_upper_bound; lia).
      exists (nth i outline (xy 0 0)),
        (nth ((i + 1) mod length outline) outline (xy 0 0)).
      split; [apply nth_error_nth'; lia|].
      split; [apply nth_error_nth'; assumption|].
      unfold Spec.serialize. rewrite nth_error_map.
      rewrite nth_error_nth' with (d := 0%nat) by (rewrite length_seq; lia).
      rewrite seq_nth by lia. cbn [option_map].
      replace (1 + (i - 1))%nat with i by lia. reflexivity.
    + intros HQ HZ. eexists; split; [exact Href|].
      rewrite !renderPath_count by assumption. rewrite Hcount.
      cbn [Spec.countLetter Ascii.eqb Bool.eqb]. lia.
Qed.

Lemma C2_serializer_segments_witness :
  Ink.getSvgPathFromStroke (fun _ _ => "0"%string) [] = Ok EmptyString /\
  Ink.getSvgPathFromStroke (fun _ _ => "0"%string) [xy 0 0; xy 2 0; xy 2 2]
    = Ok "M 0 0 Q 0 0, 0 0 Q 0 0, 0 0 Z"%string /\
  length (Spec.serialize [xy 0 0; xy 2 0; xy 2 2]) = 2%nat /\
  (exists p1 p2,
     nth_error [xy 0 0; xy 2 0; xy 2 2] 2 = Some p1 /\
     nth_error [xy 0 0; xy 2 0; xy 2 2] 0 = Some p2 /\
     nth_error (Spec.serialize [xy 0 0; xy 2 0; xy 2 2]) 1
       = Some (Spec.mkSegment p1 (Spec.midpoint p1 p2))) /\
  exists d,
    Ink.getSvgPathFromStroke (fun _ _ => "0"%string) [xy 0 0; xy 2 0; xy 2 2]
      = Ok d /\
    Spec.countLetter "Q" d = 2%nat /\ Spec.countLetter "Z" d = 1%nat.
Proof.
  pose proof (C2_serializer_segments (fun _ _ => "0"%string) []) as [H0 _].
  pose proof (C2_serializer_segments (fun _ _ => "0"%string)
                [xy 0 0; xy 2 0; xy 2 2]) as [_ H3].
  destruct (H3 (xy 0 0) eq_refl) as (Hpath & Hlen & Hseg & Hletters).
  refine (conj (H0 eq_refl) (conj Hpath (conj Hlen (conj _ _)))).
  - apply (Hseg 2%nat); simpl; lia.
  - apply Hletters; intros v digits; reflexivity.
Defined.

(** ** Pressure estimation *)

Lemma or_num_nonzero (a d : R) : d <> 0 -> Js.or_num a d <> 0.
Proof.
  intros Hd. unfold Js.or_num. destruct (Js.eqb a 0) eqn:E; [assumption|].
  now apply eqb_neq.
Qed.

(** [last.time || 0] is the prior time stamp, or [0] when there is none. *)
Lemma or_opt_zero (o : option R) :
  Js.or_opt o 0 = match o with Some t0 => t0 | None => 0 end.
Proof.
  destruct o as [v|]; [|reflexivity]. unfold Js.or_opt, Js.or_num.
  destruct (Js.eqb v 0) eqn:E; [|reflexivity]. apply eqb_eq in E. congruence.
Qed.

(** The velocity never faults: its divisor is the elapsed time, replaced
    by [1] when the elapsed time is [0]. *)
Lemma velocity_spec (px py t : R) (last : Point) :
  let d := Js.hypot (px - x last) (py - y last) in
  let dt := t - match time last with Some t0 => t0 | None => 0 end in
  Canvas.velocity px py t last
  = Ok (d / (if Req_dec_T dt 0 then 1 else dt)).
Proof.
  cbv zeta. unfold Canvas.velocity. rewrite or_opt_zero.
  rewrite div_ok by (apply or_num_nonzero; lra).
  unfold Js.or_num, Js.eqb.
  now destruct (Req_dec_T (t - match time last with Some t0 => t0 | None => 0 end) 0).
Qed.

Lemma neutral_test (raw : R) :
  (Js.eqb raw 0 || Js.eqb raw 0.5 = true <-> raw = 0 \/ raw = 0.5) /\
  (Js.eqb raw 0 || Js.eqb raw 0.5 = false <-> raw <> 0 /\ raw <> 0.5).
Proof.
  rewrite orb_true_iff, orb_false_iff, !eqb_eq, !eqb_neq. tauto.
Qed.

(** C3. A sample whose raw pressure is [0] or [0.5] (a pointer event
    always carries a pressure) resolves to [0.5] when there is no prior
    point, and otherwise to [1 - min(velocity, 2.5) / 2.5] clamped to
    [[0.1, 1.0]], the velocity being the Euclidean distance to the last
    prior point divided by the elapsed time (by [1] if no time has
    elapsed); any other raw pressure is returned unchanged. *)
Theorem C3_resolved_pressure (rect : Canvas.DOMRect) (now : R)
  (e : Canvas.PointerEvent) (priorPoints : list Point) :
  let raw := Canvas.e_pressure e in
  let px := Canvas.clientX e - Canvas.rect_left rect in
  let py := Canvas.clientY e - Canvas.rect_top rect in
  exists p,
    Canvas.getPoint rect now e priorPoints = Ok p /\
    x p = px /\ y p = py /\ time p = Some now /\
    (raw = 0 \/ raw = 0.5 -> priorPoints = [] -> pressure p = Some 0.5) /\
    (raw = 0 \/ raw = 0.5 ->
     forall last, priorPoints <> [] ->
       nth_error priorPoints (length priorPoints - 1) = Some last ->
       let d := Js.hypot (px - x last) (py - y last) in
       let elapsed := now - match time last with Some t0 => t0 | None => 0 end in
       let velocity := d / (if Req_dec_T elapsed 0 then 1 else elapsed) in
       pressure p = Some (Spec.clamp 0.1 1 (1 - Rmin velocity 2.5 / 2.5))) /\
    (raw <> 0 -> raw <> 0.5 -> pressure p = Some raw).
Proof.
  cbv zeta. unfold Canvas.getPoint. cbv zeta.
  destruct (Js.eqb (Canvas.e_pressure e) 0 || Js.eqb (Canvas.e_pressure e) 0.5)
    eqn:E.
  - apply (proj1 (neutral_test _)) in E.
    destruct (Nat.ltb_spec 0 (length priorPoints)) as [Hlen|Hlen].
    + destruct (at_index_ok priorPoints (length priorPoints - 1)) as (last & Hl & ->);
        [lia|].
      cbn [bind]. rewrite velocity_spec. cbn [bind].
      rewrite div_ok by lra. cbn [bind ret].
      eexists; split; [reflexivity|]. cbn [x y time pressure].
      do 3 (split; [reflexivity|]).
      split; [intros _ ->; cbn in Hlen; lia|].
      split.
      * intros _ last' _ Hl'. rewrite Hl in Hl'. injection Hl' as <-.
        unfold Spec.clamp, Js.max, Js.min. replace 1.0 with 1 by lra.
        reflexivity.
      * intros H0 H5. destruct E; contradiction.
    + cbn [bind ret]. eexists; split; [reflexivity|]. cbn [x y time pressure].
      do 3 (split; [reflexivity|]).
      split; [reflexivity|].
      split.
      * intros _ last Hne. destruct priorPoints; [contradiction | cbn in Hlen; lia].
      * intros H0 H5. destruct E; contradiction.
  - apply (proj2 (neutral_test _)) in E. destruct E as [E0 E5].
    cbn [bind ret]. eexists; split; [reflexivity|]. cbn [x y time pressure].
    do 3 (split; [reflexivity|]).
    split; [intros [?|?]; contradiction|].
    split; [intros [?|?]; contradiction|]. reflexivity.
Qed.

Lemma hypot_eq (a b c : R) : 0 <= c -> a * a + b * b = c * c -> Js.hypot a b = c.
Proof.
  intros Hc H. unfold Js.hypot. rewrite H. now apply sqrt_square.
Qed.

Lemma C3_resolved_pressure_witness :
  exists p,
    Canvas.getPoint (Canvas.mkRect 0 0) 20 (Canvas.mkEvent 3 4 0.5)
      [mkPoint 0 0 (Some 0.1) (Some 10)] = Ok p /\
    pressure p = Some 0.8.
Proof.
  destruct (C3_resolved_pressure (Canvas.mkRect 0 0) 20 (Canvas.mkEvent 3 4 0.5)
              [mkPoint 0 0 (Some 0.1) (Some 10)])
    as (p & Hp & _ & _ & _ & _ & Hnext & _).
  exists p. split; [exact Hp|].
  rewrite (Hnext (or_intror eq_refl) (mkPoint 0 0 (Some 0.1) (Some 10))
             ltac:(discriminate) eq_refl).
  cbn [Canvas.clientX Canvas.clientY Canvas.rect_left Canvas.rect_top x y time].
  rewrite (hypot_eq _ _ 5) by lra. decide_reals.
Defined.

(** C4, as the code has it.  With a prior point, the velocity is the
    distance divided by the elapsed time [t - priorTime] itself whenever
    that is not [0], and by [1] when it is [0] (identical time stamps);
    [priorTime] is [0] when the prior point has no time stamp.  The
    divisor agrees with [max(t - priorTime, 1)] from [1] upwards. *)
Theorem C4_elapsed_divisor (px py t : R) (last : Point) :
  let d := Js.hypot (px - x last) (py - y last) in
  let dt := t - match time last with Some t0 => t0 | None => 0 end in
  (dt <> 0 -> Canvas.velocity px py t last = Ok (d / dt)) /\
  (dt = 0 -> Canvas.velocity px py t last = Ok (d / 1)) /\
  (1 <= dt -> Canvas.velocity px py t last = Ok (d / Rmax dt 1)).
Proof.
  cbv zeta. rewrite velocity_spec. cbv zeta.
  destruct (Req_dec_T (t - match time last with Some t0 => t0 | None => 0 end) 0)
    as [E|E].
  - repeat split; intros H; try reflexivity; try contradiction.
    rewrite E in H. lra.
  - repeat split; intros H; try reflexivity; try contradiction.
    now rewrite Rmax_left.
Qed.

Lemma C4_elapsed_divisor_witness :
  Canvas.velocity 3 4 10.5 (mkPoint 0 0 (Some 0.1) (Some 10))
    = Ok (Js.hypot (3 - 0) (4 - 0) / (10.5 - 10)) /\
  Canvas.velocity 3 4 10 (mkPoint 0 0 (Some 0.1) (Some 10))
    = Ok (Js.hypot (3 - 0) (4 - 0) / 1) /\
  Canvas.velocity 3 4 12 (mkPoint 0 0 (Some 0.1) (Some 10))
    = Ok (Js.hypot (3 - 0) (4 - 0) / Rmax (12 - 10) 1).
Proof.
  split; [|split].
  - apply (C4_elapsed_divisor 3 4 10.5 (mkPoint 0 0 (Some 0.1) (Some 10))).
    simpl. lra.
  - apply (C4_elapsed_divisor 3 4 10 (mkPoint 0 0 (Some 0.1) (Some 10))).
    simpl. lra.
  - apply (C4_elapsed_divisor 3 4 12 (mkPoint 0 0 (Some 0.1) (Some 10))).
    simpl. lra.
Defined.

(** C4 as the specification words it does not hold: half a millisecond
    after the prior point the divisor is [0.5], not [max(0.5, 1) = 1]; the
    velocity over a distance of [5] is [10], not [5]. *)
Lemma C4_max_divisor_counterexample :
  Canvas.velocity 3 4 10.5 (mkPoint 0 0 (Some 0.1) (Some 10)) = Ok 10 /\
  Js.hypot (3 - 0) (4 - 0) / Rmax (10.5 - 10) 1 = 5 /\
  Canvas.velocity 3 4 10.5 (mkPoint 0 0 (Some 0.1) (Some 10))
    <> Ok (Js.hypot (3 - 0) (4 - 0) / Rmax (10.5 - 10) 1).
Proof.
  assert (Hv : Canvas.velocity 3 4 10.5 (mkPoint 0 0 (Some 0.1) (Some 10)) = Ok 10).
  { rewrite velocity_spec. cbn [x y time].
    rewrite (hypot_eq _ _ 5) by lra. decide_reals. }
  assert (Hc : Js.hypot (3 - 0) (4 - 0) / Rmax (10.5 - 10) 1 = 5).
  { rewrite (hypot_eq _ _ 5) by lra. decide_reals. }
  repeat split; try assumption.
  rewrite Hv, Hc. intros [= H]. lra.
Qed.

(** ** Totality on duplicate points *)

(** [getPoint] never faults. *)
Lemma getPoint_total (rect : Canvas.DOMRect) (now : R) (e : Canvas.PointerEvent)
  (prior : list Point) :
  succeeds (Canvas.getPoint rect now e prior).
Proof.
  unfold Canvas.getPoint. cbv zeta.
  destruct (Js.eqb (Canvas.e_pressure e) 0 || Js.eqb (Canvas.e_pressure e) 0.5).
  - destruct (Nat.ltb_spec 0 (length prior)) as [Hlen|Hlen].
    + destruct (at_index_ok prior (length prior - 1)) as (last & _ & ->); [lia|].
      cbn [bind]. rewrite velocity_spec. cbn [bind].
      rewrite div_ok by lra. cbn [bind ret]. eexists; reflexivity.
    + cbn [bind ret]. eexists; reflexivity.
  - cbn [bind ret]. eexists; reflexivity.
Qed.

(** A sample at distance zero from the last prior point has velocity [0],
    whatever the time stamps are, and a neutral raw pressure then
    resolves to [1]. *)
Lemma getPoint_zero_distance (rect : Canvas.DOMRect) (now : R)
  (e : Canvas.PointerEvent) (prior : list Point) (last : Point) :
  let px := Canvas.clientX e - Canvas.rect_left rect in
  let py := Canvas.clientY e - Canvas.rect_top rect in
  prior <> [] ->
  nth_error prior (length prior - 1) = Some last ->
  Js.hypot (px - x last) (py - y last) = 0 ->
  Canvas.velocity px py now last = Ok 0 /\
  exists p, Canvas.getPoint rect now e prior = Ok p /\
    (Canvas.e_pressure e = 0 \/ Canvas.e_pressure e = 0.5 ->
     pressure p = Some 1).
Proof.
  cbv zeta. intros Hne Hlast Hd.
  assert (Hv : Canvas.velocity (Canvas.clientX e - Canvas.rect_left rect)
                 (Canvas.clientY e - Canvas.rect_top rect) now last = Ok 0).
  { rewrite velocity_spec. cbv zeta. rewrite Hd. f_equal. unfold Rdiv. ring. }
  split; [assumption|].
  unfold Canvas.getPoint. cbv zeta.
  destruct (Js.eqb (Canvas.e_pressure e) 0 || Js.eqb (Canvas.e_pressure e) 0.5)
    eqn:E.
  - destruct (Nat.ltb_spec 0 (length prior)) as [Hlen|Hlen].
    + unfold Js.at_index. rewrite Hlast. cbn [bind]. rewrite Hv. cbn [bind].
      rewrite div_ok by lra. cbn [bind ret].
      eexists; split; [reflexivity|]. intros _. cbn [pressure]. decide_reals.
    + destruct prior; [contradiction | cbn in Hlen; lia].
  - apply (proj2 (neutral_test _)) in E. destruct E as [E0 E5].
    cbn [bind ret]. eexists; split; [reflexivity|]. intros [?|?]; contradiction.
Qed.

(** [getStrokeOutlinePoints] never faults, on any list of points. *)
Lemma getStrokeOutlinePoints_total (points : list Point)
  (options : StrokeSettings) :
  succeeds (Ink.getStrokeOutlinePoints points options).
Proof.
  destruct (Nat.lt_ge_cases (length points) 2) as [H|H].
  - exists []. unfold Ink.getStrokeOutlinePoints.
    destruct (Nat.ltb_spec (length points) 2); [reflexivity | lia].
  - destruct (outline_points points options H) as (o & Ho & _). now exists o.
Qed.

Lemma offset_of_zero (h : R) : Ink.mul (Ink.perp (xy 0 0)) h = xy 0 0.
Proof. unfold Ink.mul, Ink.perp, xy. cbn [x y]. f_equal; ring. Qed.

(** C8. Normalizing a vector of length zero returns [(0,0)] without a
    fault.  Pressure estimation never divides by zero, and for a sample
    at distance zero from the last prior point the velocity is [0] and a
    neutral pressure resolves to [1].  Outline building never divides by
    zero either; a duplicate of the next point gives the direction
    [(0,0)], and wherever the smoothed direction is [(0,0)] the offset is
    [(0,0)] and both outline points coincide with the input point. *)
Theorem C8_total_on_duplicate_points :
  (forall a, Js.hypot (x a) (y a) = 0 -> Ink.normalize a = Ok (xy 0 0)) /\
  (forall rect now e prior, succeeds (Canvas.getPoint rect now e prior)) /\
  (forall rect now e prior last,
     prior <> [] ->
     nth_error prior (length prior - 1) = Some last ->
     Js.hypot (Canvas.clientX e - Canvas.rect_left rect - x last)
              (Canvas.clientY e - Canvas.rect_top rect - y last) = 0 ->
     Canvas.velocity (Canvas.clientX e - Canvas.rect_left rect)
       (Canvas.clientY e - Canvas.rect_top rect) now last = Ok 0 /\
     exists p, Canvas.getPoint rect now e prior = Ok p /\
       (Canvas.e_pressure e = 0 \/ Canvas.e_pressure e = 0.5 ->
        pressure p = Some 1)) /\
  (forall points options,
     succeeds (Ink.getStrokeOutlinePoints points options)) /\
  (forall points options, (2 <= length points)%nat ->
     exists outline,
       Ink.getStrokeOutlinePoints points options = Ok outline /\
       forall i, (i < length points)%nat ->
       exists st_i loc p l r,
         Ink.stateAt points options i = Ok st_i /\
         Ink.locals points options i st_i = Ok loc /\
         nth_error points i = Some p /\
         nth_error outline i = Some l /\
         nth_error outline (2 * length points - 1 - i) = Some r /\
         (forall next, nth_error points (S i) = Some next ->
            Ink.dist next p = 0 -> Ink.vector loc = xy 0 0) /\
         (Ink.smoothVector loc = xy 0 0 ->
            Ink.offset loc = xy 0 0 /\
            x l = x p /\ y l = y p /\ x r = x p /\ y r = y p)).
Proof.
  split.
  { intros a Ha. destruct (normalize_spec a) as (v & Hv & Hz & _).
    now rewrite Hv, (Hz Ha). }
  split; [exact getPoint_total|].
  split.
  { intros rect now e prior last. apply getPoint_zero_distance. }
  split; [exact getStrokeOutlinePoints_total|].
  intros points options Hn.
  destruct (outline_points points options Hn) as (o & Ho & _ & Hpts).
  exists o. split; [assumption|]. intros i Hi.
  destruct (Hpts i Hi) as (st_i & loc & Hst & Hloc & Hl & Hr).
  destruct (locals_spec points options i st_i Hi)
    as (loc' & Hloc' & Hc & _ & _ & Hnext & _ & _ & Hoff).
  rewrite Hloc in Hloc'. injection Hloc' as <-.
  exists st_i, loc, (Ink.curr loc), (Ink.sub (Ink.curr loc) (Ink.offset loc)),
    (Ink.add (Ink.curr loc) (Ink.offset loc)).
  repeat (split; [now auto|]). split.
  - intros next Hnx Hd.
    assert (HS : (S i < length points)%nat)
      by (apply nth_error_Some; congruence).
    destruct (Hnext HS) as (next' & Hnx' & Hnorm).
    rewrite Hnx in Hnx'. injection Hnx' as <-.
    destruct (normalize_spec (Ink.sub next (Ink.curr loc))) as (v & Hv & Hz & _).
    rewrite Hnorm in Hv. injection Hv as <-. apply Hz. exact Hd.
  - intros Hsv. rewrite Hsv in Hoff. rewrite offset_of_zero in Hoff.
    rewrite Hoff. cbn [Ink.sub Ink.add x y xy].
    repeat split; ring.
Qed.

Lemma C8_total_on_duplicate_points_witness :
  Ink.normalize (xy 0 0) = Ok (xy 0 0) /\
  (Canvas.velocity (7 - 2) (9 - 3) 10 (mkPoint 5 6 (Some 0.1) (Some 10)) = Ok 0 /\
   exists p,
     Canvas.getPoint (Canvas.mkRect 2 3) 10 (Canvas.mkEvent 7 9 0.5)
       [mkPoint 5 6 (Some 0.1) (Some 10)] = Ok p /\
     (0.5 = 0 \/ 0.5 = 0.5 -> pressure p = Some 1)) /\
  exists outline,
    Ink.getStrokeOutlinePoints [xy 1 1; xy 1 1; xy 1 1]
      (mkSettings 14 0.75 0.5 "#1c1917" true) = Ok outline.
Proof.
  destruct C8_total_on_duplicate_points as (Hnorm & _ & Hzero & _ & Hout).
  split; [|split].
  - apply (Hnorm (xy 0 0)). apply hypot_zero. simpl. split; reflexivity.
  - apply (Hzero (Canvas.mkRect 2 3) 10 (Canvas.mkEvent 7 9 0.5)
             [mkPoint 5 6 (Some 0.1) (Some 10)] (mkPoint 5 6 (Some 0.1) (Some 10))).
    + discriminate.
    + reflexivity.
    + apply hypot_zero. simpl. split; lra.
  - destruct (Hout [xy 1 1; xy 1 1; xy 1 1] (mkSettings 14 0.75 0.5 "#1c1917" true))
      as (o & Ho & _); [simpl; lia|].
    now exists o.
Defined.

(** ** Pressure smoothing *)






(** ** A stroke computed end to end *)

Lemma normalize_nonzero (a : Point) (d : R) :
  0 < d -> x a * x a + y a * y a = d * d ->
  Ink.normalize a = Ok (xy (x a / d) (y a / d)).
Proof.
  intros Hd H. unfold Ink.normalize. cbv zeta.
  rewrite (hypot_eq (x a) (y a) d) by lra.
  rewrite (proj2 (eqb_neq d 0)) by lra.
  rewrite !div_ok by lra. reflexivity.
Qed.

Lemma xy_eq (a b c d : R) : a = c -> b = d -> xy a b = xy c d.
Proof. now intros -> ->. Qed.

(** Two points, [(0,0)] and [(3,4)], both at pressure [1], drawn with
    [size = 10] and [thinning = 0]: the direction is [(0.6, 0.8)], the
    normal [(0.8, -0.6)], the offset [(4, -3)]. *)
Example outline_of_two_points :
  Ink.getStrokeOutlinePoints
    [mkPoint 0 0 (Some 1) None; mkPoint 3 4 (Some 1) None]
    (mkSettings 10 0 0.5 "#1c1917" true)
  = Ok [xy (-4) 3; xy (-1) 7; xy 7 1; xy 4 (-3)].
Proof.
  unfold Ink.getStrokeOutlinePoints, Ink.initial.
  cbn [length Nat.ltb Nat.leb Js.at_index nth_error bind seq Ink.for_each].
  rewrite (normalize_nonzero _ 5) by (cbn [Ink.sub x y xy]; lra).
  cbn [bind ret Ink.sub x y xy].
  unfold Ink.iteration, Ink.locals.
  cbn [length Js.at_index nth_error bind Nat.add Js.nullish pressure].
  rewrite !taper_refines by (cbn; lia).
  cbn [bind Ink.prevPressure Ink.prevVector Z.of_nat Z.ltb Z.compare
       Pos.of_succ_nat Pos.succ Z.sub Z.add Z.opp Z.pos_sub Pos.compare
       Pos.compare_cont Pos.pred_double].
  rewrite (normalize_nonzero _ 5) by (cbn [Ink.sub x y xy]; lra).
  cbn [bind ret Ink.sub Ink.add x y xy].
  rewrite (normalize_nonzero _ 2) by (cbn [Ink.add x y xy]; lra).
  rewrite !div_two.
  cbn [bind ret Ink.l_pressure Ink.vector Ink.curr Ink.offset Ink.leftPts
       Ink.rightPts Ink.prevVector Ink.prevPressure app rev].
  rewrite (normalize_nonzero _ 2) by (cbn [Ink.add x y xy]; lra).
  rewrite !div_two.
  cbn [bind ret Ink.l_pressure Ink.vector Ink.curr Ink.offset Ink.leftPts
       Ink.rightPts Ink.prevVector Ink.prevPressure app rev].
  unfold Ink.sub, Ink.add, Ink.mul, Ink.perp, Ink.lerp, Spec.taperFactor.
  cbn [x y xy size thinning Nat.min Nat.div Nat.divmod fst Nat.eqb length].
  unfold ret. f_equal.
  repeat (apply f_equal2; [apply xy_eq; lra|]). reflexivity.
Qed.

(** * Further properties of the code *)

(** ** [normalize] *)

(** [normalize] keeps the direction and makes the length one: a vector
    of length [d <> 0] is [d] times its normalized vector, which has
    length [1]; a vector of length [0] is sent to [(0,0)]; and
    normalizing a second time changes nothing. *)
Theorem normalize_unit_same_direction (a : Point) :
  exists v,
    Ink.normalize a = Ok v /\
    (Js.hypot (x a) (y a) = 0 -> v = xy 0 0) /\
    (Js.hypot (x a) (y a) <> 0 ->
       Js.hypot (x v) (y v) = 1 /\
       x a = x v * Js.hypot (x a) (y a) /\
       y a = y v * Js.hypot (x a) (y a)) /\
    Ink.normalize v = Ok v.
Proof.
  destruct (Req_dec_T (Js.hypot (x a) (y a)) 0) as [E|E].
  - exists (xy 0 0).
    assert (H0 : Ink.normalize (xy 0 0) = Ok (xy 0 0)).
    { unfold Ink.normalize. cbv zeta. cbn [x y xy].
      now rewrite (proj2 (hypot_zero 0 0) (conj eq_refl eq_refl)), eqb_refl. }
    split; [|split; [reflexivity | split; [contradiction | exact H0]]].
    destruct (normalize_spec a) as (v & Hv & Hz & _). now rewrite Hv, (Hz E).
  - pose proof (hypot_nonneg (x a) (y a)) as Hpos.
    exists (xy (x a / Js.hypot (x a) (y a)) (y a / Js.hypot (x a) (y a))).
    assert (Hn : Ink.normalize a
                 = Ok (xy (x a / Js.hypot (x a) (y a)) (y a / Js.hypot (x a) (y a)))).
    { apply normalize_nonzero; [lra | symmetry; apply hypot_sqr]. }
    assert (Hu : Js.hypot (x a / Js.hypot (x a) (y a)) (y a / Js.hypot (x a) (y a)) = 1).
    { destruct (normalize_spec a) as (v & Hv & _ & Hunit). rewrite Hn in Hv.
      injection Hv as <-. exact (Hunit E). }
    split; [exact Hn|]. split; [intros; contradiction|]. split.
    + intros _. cbn [x y xy]. split; [exact Hu|]. split; field; exact E.
    + rewrite (normalize_nonzero _ 1); cbn [x y xy].
      * f_equal. apply xy_eq; field; exact E.
      * lra.
      * rewrite <- hypot_sqr. cbn [x y xy] in Hu. rewrite Hu. ring.
Qed.

Lemma normalize_unit_same_direction_witness :
  exists v,
    Ink.normalize (xy 3 4) = Ok v /\
    Js.hypot (x v) (y v) = 1 /\
    3 = x v * Js.hypot 3 4 /\ 4 = y v * Js.hypot 3 4.
Proof.
  destruct (normalize_unit_same_direction (xy 3 4)) as (v & Hv & _ & Hu & _).
  exists v. split; [exact Hv|]. apply Hu. cbn [x y xy].
  rewrite (hypot_eq 3 4 5) by lra. lra.
Defined.

(** ** Bounds on the taper, the pressure and the width *)

Lemma cube_unit (u : R) : 0 <= u <= 1 -> 0 <= 1 - (1 - u) ^ 3 <= 1.
Proof.
  intros [H0 H1].
  assert (0 <= (1 - u) ^ 3) by (apply pow_le; lra).
  assert ((1 - u) ^ 3 <= 1 ^ 3) by (apply pow_incr; lra).
  rewrite pow1 in *. lra.
Qed.

Lemma taperFactor_range (N i : nat) :
  (i < N)%nat -> 0 <= Spec.taperFactor i N <= 1.
Proof.
  intros Hi. set (tl := Nat.min 5 (N / 3)).
  pose proof (taperLength_le N) as Hle. unfold Ink.taperLength in Hle. fold tl in Hle.
  destruct (Nat.lt_ge_cases i tl) as [Hlead|Hge].
  - rewrite taperFactor_leading by (fold tl; lia). fold tl.
    destruct (ratio_bounds N i i) as (H1 & _ & H3); try (fold tl; lia).
    fold tl in H1, H3. apply cube_unit. lra.
  - destruct (Nat.lt_ge_cases (N - 1 - tl) i) as [Htrail|Hmid].
    + rewrite taperFactor_trailing by (fold tl; lia). fold tl.
      destruct (ratio_bounds N (N - 1 - i) (N - 1 - i)) as (H1 & _ & H3);
        try (fold tl; lia).
      fold tl in H1, H3. apply cube_unit. lra.
    + rewrite taperFactor_middle by (fold tl; lia). lra.
Qed.

(** The taper never amplifies a pressure and never turns it negative:
    at every index of a stroke it returns, without a fault, a value
    between [0] and the pressure it was given. *)
Theorem taper_attenuates (len i : nat) (p : R) :
  (i < len)%nat -> 0 <= p ->
  exists q, Ink.taper len i p = Ok q /\ 0 <= q <= p.
Proof.
  intros Hi Hp. exists (p * Spec.taperFactor i len).
  split; [now apply taper_refines|].
  pose proof (taperFactor_range len i Hi). nra.
Qed.

Lemma taper_attenuates_witness :
  exists q, Ink.taper 16 2 0.8 = Ok q /\ 0 <= q <= 0.8.
Proof. apply (taper_attenuates 16 2 0.8); [simpl; lia | lra]. Defined.

Section PressureBounds.

Variable points : list Point.
Variable options : StrokeSettings.

Hypothesis enough : (2 <= length points)%nat.
Hypothesis inRange : Stroke.pressuresInRange points.

Lemma nullish_range (i : nat) (p : Point) :
  nth_error points i = Some p -> 0 <= Js.nullish (pressure p) 0.5 <= 1.
Proof.
  intros Hp. unfold Stroke.pressuresInRange in inRange.
  rewrite Forall_forall in inRange. apply nth_error_In in Hp.
  specialize (inRange p Hp). destruct (pressure p) as [v|]; cbn.
  - now apply inRange.
  - lra.
Qed.

(** The smoothed pressure handed from one iteration to the next stays in
    [[0, 1]]. *)
Lemma prevPressure_range (k : nat) (st : Ink.LoopState) :
  (k <= length points)%nat ->
  Ink.stateAt points options k = Ok st ->
  0 <= Ink.prevPressure st <= 1.
Proof.
  revert st. induction k as [|k IH]; intros st Hk Hst.
  - destruct (initial_spec points enough) as (p0 & p1 & v & H0 & _ & _ & Hi).
    unfold Ink.stateAt in Hst. rewrite Hi in Hst. cbn in Hst.
    injection Hst as <-. cbn [Ink.prevPressure].
    pose proof (nullish_range 0 p0 H0) as Hr.
    unfold Js.or_opt, Js.or_num. destruct (pressure p0) as [w|]; cbn in Hr.
    + destruct (Js.eqb w 0); lra.
    + lra.
  - destruct (stateAt_total points options k enough) as (st_k & Hk' & _); [lia|].
    rewrite stateAt_S, Hk' in Hst. cbn [bind] in Hst.
    destruct (locals_spec points options k st_k) as (l & Hl & Hc & Hp & _); [lia|].
    unfold Ink.iteration in Hst. rewrite Hl in Hst. cbn [bind ret] in Hst.
    injection Hst as <-. cbn [Ink.prevPressure]. rewrite Hp.
    pose proof (IH st_k ltac:(lia) Hk') as Hprev.
    pose proof (nullish_range k _ Hc) as Hraw.
    pose proof (taperFactor_range (length points) k ltac:(lia)) as Hf.
    unfold Ink.lerp. nra.
Qed.

Lemma locals_range (i : nat) (st : Ink.LoopState) (l : Ink.Locals) :
  (i < length points)%nat ->
  Ink.stateAt points options i = Ok st ->
  Ink.locals points options i st = Ok l ->
  0 <= Ink.l_pressure l <= 1.
Proof.
  intros Hi Hst Hl.
  destruct (locals_spec points options i st Hi) as (l' & Hl' & Hc & Hp & _).
  rewrite Hl in Hl'. injection Hl' as <-. rewrite Hp.
  pose proof (prevPressure_range i st ltac:(lia) Hst) as Hprev.
  pose proof (nullish_range i _ Hc) as Hraw.
  pose proof (taperFactor_range (length points) i Hi) as Hf.
  unfold Ink.lerp. nra.
Qed.

End PressureBounds.

Lemma width_range (s t p : R) :
  0 <= s -> 0 <= t <= 1 -> 0 <= p <= 1 ->
  s * (1 - t) <= s * (1 - t * (1 - p)) <= s.
Proof.
  intros Hs Ht Hp.
  assert (H0 : 0 <= t * (1 - p)) by (apply Rmult_le_pos; lra).
  assert (H1 : t * (1 - p) <= t * 1) by (apply Rmult_le_compat_l; lra).
  split.
  - apply Rmult_le_compat_l; lra.
  - rewrite <- (Rmult_1_r s) at 2. apply Rmult_le_compat_l; lra.
Qed.

(** When every pressure of the input lies in [[0, 1]], with [thinning]
    in [[0, 1]] and [size >= 0]: at every point the smoothed pressure
    lies in [[0, 1]] and the width lies between [size * (1 - thinning)]
    and [size]. *)
Theorem width_between_thinned_and_size
  (points : list Point) (options : StrokeSettings) :
  (2 <= length points)%nat ->
  Stroke.pressuresInRange points ->
  0 <= thinning options <= 1 ->
  0 <= size options ->
  forall i, (i < length points)%nat ->
  exists st_i loc,
    Ink.stateAt points options i = Ok st_i /\
    Ink.locals points options i st_i = Ok loc /\
    0 <= Ink.l_pressure loc <= 1 /\
    size options * (1 - thinning options) <= Ink.width loc <= size options.
Proof.
  intros Hn Hr Ht Hs i Hi.
  destruct (stateAt_total points options i Hn) as (st & Hst & _); [lia|].
  destruct (locals_spec points options i st Hi) as (l & Hl & _ & _ & Hw & _).
  exists st, l. split; [assumption|]. split; [assumption|].
  pose proof (locals_range points options Hn Hr i st l Hi Hst Hl) as Hp.
  split; [assumption|]. rewrite Hw. now apply width_range.
Qed.

Lemma width_between_thinned_and_size_witness :
  exists st_i loc,
    Ink.stateAt [mkPoint 0 0 (Some 0.1) None; mkPoint 3 4 None None;
                 mkPoint 6 8 (Some 1) None] App.INITIAL_SETTINGS 1 = Ok st_i /\
    Ink.locals [mkPoint 0 0 (Some 0.1) None; mkPoint 3 4 None None;
                mkPoint 6 8 (Some 1) None] App.INITIAL_SETTINGS 1 st_i = Ok loc /\
    0 <= Ink.l_pressure loc <= 1 /\
    14 * (1 - 0.75) <= Ink.width loc <= 14.
Proof.
  apply (width_between_thinned_and_size
           [mkPoint 0 0 (Some 0.1) None; mkPoint 3 4 None None;
            mkPoint 6 8 (Some 1) None] App.INITIAL_SETTINGS).
  - simpl. lia.
  - unfold Stroke.pressuresInRange.
    repeat (apply Forall_cons;
            [cbn [pressure]; intros v E; try discriminate;
             injection E as <-; lra|]).
    apply Forall_nil.
  - simpl. lra.
  - simpl. lra.
  - simpl. lia.
Defined.

(** Under the same conditions the stroke is nowhere wider than [size]:
    both outline points of every input point lie within [size / 2] of
    it. *)
Theorem outline_within_half_size
  (points : list Point) (options : StrokeSettings) :
  (2 <= length points)%nat ->
  Stroke.pressuresInRange points ->
  0 <= thinning options <= 1 ->
  0 <= size options ->
  exists outline,
    Ink.getStrokeOutlinePoints points options = Ok outline /\
    forall i, (i < length points)%nat ->
    exists p l r,
      nth_error points i = Some p /\
      nth_error outline i = Some l /\
      nth_error outline (2 * length points - 1 - i) = Some r /\
      Ink.dist l p <= size options / 2 /\
      Ink.dist r p <= size options / 2.
Proof.
  intros Hn Hr Ht Hs.
  destruct (outline_points points options Hn) as (o & Ho & _ & Hpts).
  exists o. split; [assumption|]. intros i Hi.
  destruct (Hpts i Hi) as (st_i & loc & Hst & Hloc & Hl & Hrt).
  destruct (locals_spec points options i st_i Hi)
    as (loc' & Hloc' & Hc & _ & Hw & _ & _ & Hsv & Hoff).
  rewrite Hloc in Hloc'. injection Hloc' as <-.
  pose proof (locals_range points options Hn Hr i st_i loc Hi Hst Hloc) as Hp.
  assert (Hwr : 0 <= Ink.width loc / 2 <= size options / 2).
  { rewrite Hw. pose proof (width_range (size options) (thinning options)
                              (Ink.l_pressure loc) Hs Ht Hp) as Hb.
    assert (0 <= size options * (1 - thinning options))
      by (apply Rmult_le_pos; lra).
    lra. }
  assert (Hlen : Js.hypot (x (Ink.offset loc)) (y (Ink.offset loc))
                 <= size options / 2).
  { rewrite Hoff, hypot_offset by lra.
    destruct (normalize_cases _ _ Hsv) as [E|E]; rewrite E.
    - cbn [x y xy]. rewrite (proj2 (hypot_zero 0 0) (conj eq_refl eq_refl)). lra.
    - lra. }
  exists (Ink.curr loc), (Ink.sub (Ink.curr loc) (Ink.offset loc)),
    (Ink.add (Ink.curr loc) (Ink.offset loc)).
  repeat (split; [assumption|]).
  now rewrite dist_sub_offset, dist_add_offset.
Qed.

Lemma outline_within_half_size_witness :
  exists outline,
    Ink.getStrokeOutlinePoints
      [mkPoint 0 0 (Some 0.1) None; mkPoint 3 4 None None;
       mkPoint 6 8 (Some 1) None] App.INITIAL_SETTINGS = Ok outline /\
    forall i, (i < 3)%nat ->
    exists p l r,
      nth_error [mkPoint 0 0 (Some 0.1) None; mkPoint 3 4 None None;
                 mkPoint 6 8 (Some 1) None] i = Some p /\
      nth_error outline i = Some l /\
      nth_error outline (2 * 3 - 1 - i) = Some r /\
      Ink.dist l p <= 14 / 2 /\ Ink.dist r p <= 14 / 2.
Proof.
  apply (outline_within_half_size
           [mkPoint 0 0 (Some 0.1) None; mkPoint 3 4 None None;
            mkPoint 6 8 (Some 1) None] App.INITIAL_SETTINGS).
  - simpl. lia.
  - unfold Stroke.pressuresInRange.
    repeat (apply Forall_cons;
            [cbn [pressure]; intros v E; try discriminate;
             injection E as <-; lra|]).
    apply Forall_nil.
  - simpl. lra.
  - simpl. lra.
Defined.

(** ** What the outline depends on *)

Lemma Forall2_nth_error {A B} (P : A -> B -> Prop) (l : list A) (l' : list B)
  (i : nat) (a : A) (b : B) :
  Forall2 P l l' -> nth_error l i = Some a -> nth_error l' i = Some b -> P a b.
Proof.
  intros H. revert i. induction H as [|a0 b0 l l' Hab _ IH]; intros i Ha Hb.
  - destruct i; discriminate.
  - destruct i as [|i]; cbn in Ha, Hb.
    + injection Ha as <-. injection Hb as <-. assumption.
    + now apply (IH i).
Qed.

Section Moved.

Variables points points' : list Point.
Variables options options' : StrokeSettings.
Variables dx dy : R.

(** [q] is [p] moved by [(dx, dy)], with the same pressure. *)
Let moved (p q : Point) : Prop :=
  x q = x p + dx /\ y q = y p + dy /\ pressure q = pressure p.

Hypothesis points_moved : Forall2 moved points points'.
Hypothesis same_size : size options' = size options.
Hypothesis same_thinning : thinning options' = thinning options.
Hypothesis enough : (2 <= length points)%nat.

Let same_length : length points' = length points.
Proof. symmetry. exact (Forall2_length points_moved). Qed.

Lemma sub_moved (a b a' b' : Point) :
  moved a a' -> moved b b' -> Ink.sub a' b' = Ink.sub a b.
Proof.
  intros (Hx & Hy & _) (Hx' & Hy' & _). unfold Ink.sub.
  apply xy_eq; rewrite ?Hx, ?Hy, ?Hx', ?Hy'; ring.
Qed.

(** The two runs of the loop are in step: same pressure, same
    direction, and the pushed points moved by [(dx, dy)]. *)
Let in_step (st st' : Ink.LoopState) : Prop :=
  Ink.prevPressure st' = Ink.prevPressure st /\
  Ink.prevVector st' = Ink.prevVector st /\
  Ink.leftPts st' = map (Stroke.shift dx dy) (Ink.leftPts st) /\
  Ink.rightPts st' = map (Stroke.shift dx dy) (Ink.rightPts st).

Lemma locals_in_step (i : nat) (st st' : Ink.LoopState) (l l' : Ink.Locals) :
  (i < length points)%nat -> in_step st st' ->
  Ink.locals points options i st = Ok l ->
  Ink.locals points' options' i st' = Ok l' ->
  moved (Ink.curr l) (Ink.curr l') /\
  Ink.l_pressure l' = Ink.l_pressure l /\
  Ink.vector l' = Ink.vector l /\
  Ink.offset l' = Ink.offset l.
Proof.
  intros Hi (Hpp & Hpv & _ & _) Hl Hl'.
  destruct (locals_spec points options i st Hi)
    as (l0 & Hl0 & Hc & Hp & Hw & Hnext & Hlast & Hsv & Hoff).
  rewrite Hl in Hl0. injection Hl0 as <-.
  destruct (locals_spec points' options' i st') as
    (l0 & Hl0 & Hc' & Hp' & Hw' & Hnext' & Hlast' & Hsv' & Hoff');
    [rewrite same_length; assumption|].
  rewrite Hl' in Hl0. injection Hl0 as <-.
  pose proof (Forall2_nth_error moved points points' i _ _ points_moved Hc Hc')
    as Hm.
  assert (Epress : Ink.l_pressure l' = Ink.l_pressure l).
  { rewrite Hp, Hp', Hpp, same_length. destruct Hm as (_ & _ & ->). reflexivity. }
  assert (Evec : Ink.vector l' = Ink.vector l).
  { destruct (Nat.lt_ge_cases (S i) (length points)) as [Hlt|Hge].
    - destruct (Hnext Hlt) as (nx & Hnx & Hv).
      destruct (Hnext' ltac:(rewrite same_length; exact Hlt)) as (nx' & Hnx' & Hv').
      pose proof (Forall2_nth_error moved points points' (S i) _ _
                    points_moved Hnx Hnx') as Hmn.
      rewrite (sub_moved _ _ _ _ Hmn Hm) in Hv'. congruence.
    - rewrite Hlast by lia. rewrite Hlast' by (rewrite same_length; lia).
      assumption. }
  assert (Esv : Ink.smoothVector l' = Ink.smoothVector l).
  { rewrite Evec, Hpv in Hsv'. congruence. }
  repeat split; try assumption; try apply Hm.
  rewrite Hoff, Hoff', Esv, Hw, Hw', Epress, same_size, same_thinning.
  reflexivity.
Qed.

Lemma pushed_moved (c c' o : Point) :
  moved c c' ->
  Ink.sub c' o = Stroke.shift dx dy (Ink.sub c o) /\
  Ink.add c' o = Stroke.shift dx dy (Ink.add c o).
Proof.
  intros (Hx & Hy & _). unfold Ink.sub, Ink.add, Stroke.shift, xy.
  cbn [x y pressure time].
  split; f_equal; rewrite ?Hx, ?Hy; ring.
Qed.

Lemma stateAt_in_step (k : nat) (st st' : Ink.LoopState) :
  (k <= length points)%nat ->
  Ink.stateAt points options k = Ok st ->
  Ink.stateAt points' options' k = Ok st' ->
  in_step st st'.
Proof.
  assert (enough' : (2 <= length points')%nat) by (rewrite same_length; exact enough).
  revert st st'. induction k as [|k IH]; intros st st' Hk Hst Hst'.
  - destruct (initial_spec points enough) as (p0 & p1 & v & H0 & H1 & Hv & Hi).
    destruct (initial_spec points' enough') as (q0 & q1 & w & G0 & G1 & Hw & Gi).
    unfold Ink.stateAt in Hst, Hst'. rewrite Hi in Hst. rewrite Gi in Hst'.
    cbn in Hst, Hst'. injection Hst as <-. injection Hst' as <-.
    pose proof (Forall2_nth_error moved _ _ 0 _ _ points_moved H0 G0) as M0.
    pose proof (Forall2_nth_error moved _ _ 1 _ _ points_moved H1 G1) as M1.
    rewrite (sub_moved _ _ _ _ M1 M0) in Hw.
    repeat split; cbn; try congruence.
    destruct M0 as (_ & _ & ->). reflexivity.
  - destruct (stateAt_total points options k enough) as (s & Hs & _); [lia|].
    destruct (stateAt_total points' options' k enough') as (s' & Hs' & _);
      [rewrite same_length; lia|].
    pose proof (IH s s' ltac:(lia) Hs Hs') as Hstep.
    rewrite stateAt_S, Hs in Hst. rewrite stateAt_S, Hs' in Hst'.
    cbn [bind] in Hst, Hst'.
    destruct (iteration_spec points options k s) as (l & Hl & Hit); [lia|].
    destruct (iteration_spec points' options' k s') as (l' & Hl' & Hit');
      [rewrite same_length; lia|].
    rewrite Hit in Hst. rewrite Hit' in Hst'.
    injection Hst as <-. injection Hst' as <-.
    destruct (locals_in_step k s s' l l' ltac:(lia) Hstep Hl Hl')
      as (Hm & Hp & Hv & Ho).
    destruct Hstep as (_ & _ & HL & HR).
    destruct (pushed_moved _ _ (Ink.offset l) Hm) as (Hsub & Hadd).
    repeat split; cbn [Ink.prevPressure Ink.prevVector Ink.leftPts Ink.rightPts];
      try assumption.
    + rewrite HL, map_app, Ho, Hsub. reflexivity.
    + rewrite HR, map_app, Ho, Hadd. reflexivity.
Qed.

Lemma outline_moved :
  exists outline,
    Ink.getStrokeOutlinePoints points options = Ok outline /\
    Ink.getStrokeOutlinePoints points' options'
      = Ok (map (Stroke.shift dx dy) outline).
Proof.
  assert (enough' : (2 <= length points')%nat) by (rewrite same_length; exact enough).
  destruct (outline_spec points options enough) as (st & Hst & _ & _ & Ho).
  destruct (outline_spec points' options' enough') as (st' & Hst' & _ & _ & Ho').
  rewrite same_length in Hst'.
  destruct (stateAt_in_step (length points) st st' (Nat.le_refl _) Hst Hst')
    as (_ & _ & HL & HR).
  eexists; split; [exact Ho|]. rewrite Ho', HL, HR, map_app, map_rev.
  reflexivity.
Qed.

End Moved.

Lemma outline_of_short (points : list Point) (options : StrokeSettings) :
  (length points < 2)%nat -> Ink.getStrokeOutlinePoints points options = Ok [].
Proof.
  intros H. unfold Ink.getStrokeOutlinePoints.
  destruct (Nat.ltb_spec (length points) 2); [reflexivity | lia].
Qed.

Lemma shift_zero (p : Point) : Stroke.shift 0 0 p = p.
Proof. destruct p. unfold Stroke.shift. cbn. f_equal; ring. Qed.

(** The outline follows the stroke: drawing the same stroke moved by
    [(dx, dy)] gives the same outline moved by [(dx, dy)]. *)
Theorem outline_translates (points : list Point) (options : StrokeSettings)
  (dx dy : R) :
  exists outline,
    Ink.getStrokeOutlinePoints points options = Ok outline /\
    Ink.getStrokeOutlinePoints (map (Stroke.shift dx dy) points) options
      = Ok (map (Stroke.shift dx dy) outline).
Proof.
  destruct (Nat.lt_ge_cases (length points) 2) as [Hshort|Hn].
  - exists []. split; apply outline_of_short; [|rewrite length_map]; assumption.
  - apply outline_moved; try reflexivity; try assumption.
    clear Hn. induction points as [|p rest IH]; cbn [map]; constructor.
    + unfold Stroke.shift. cbn. repeat split.
    + exact IH.
Qed.

(** The outline depends on the points only through their positions and
    pressures, and on the settings only through [size] and [thinning]:
    time stamps, [smoothing], [color] and [simulatePressure] have no
    effect on it. *)
Theorem outline_ignores_time_and_style
  (points points' : list Point) (options options' : StrokeSettings) :
  Forall2 (fun p q => x q = x p /\ y q = y p /\ pressure q = pressure p)
    points points' ->
  size options' = size options ->
  thinning options' = thinning options ->
  Ink.getStrokeOutlinePoints points' options'
  = Ink.getStrokeOutlinePoints points options.
Proof.
  intros Hpts Hs Ht.
  pose proof (Forall2_length Hpts) as Hlen.
  destruct (Nat.lt_ge_cases (length points) 2) as [Hshort|Hn].
  - rewrite !outline_of_short by lia. reflexivity.
  - destruct (outline_moved points points' options options' 0 0)
      as (o & Ho & Ho'); try assumption.
    + eapply Forall2_impl; [|exact Hpts]. cbn. intros p q (Hx & Hy & Hp).
      repeat split; [rewrite Hx | rewrite Hy | assumption]; ring.
    + rewrite Ho, Ho'. f_equal. rewrite <- (map_id o) at 2.
      apply map_ext. exact shift_zero.
Qed.

Lemma outline_ignores_time_and_style_witness :
  Ink.getStrokeOutlinePoints
    [mkPoint 0 0 (Some 0.1) (Some 10); mkPoint 3 4 (Some 0.8) (Some 26)]
    (mkSettings 14 0.75 0.9 "#dc2626" false)
  = Ink.getStrokeOutlinePoints
      [mkPoint 0 0 (Some 0.1) None; mkPoint 3 4 (Some 0.8) None]
      App.INITIAL_SETTINGS.
Proof.
  apply outline_ignores_time_and_style.
  - repeat constructor.
  - reflexivity.
  - reflexivity.
Defined.

(** ** Two shapes of stroke *)

Lemma normalize_zero_vector (a : Point) :
  x a = 0 -> y a = 0 -> Ink.normalize a = Ok (xy 0 0).
Proof.
  intros Hx Hy. destruct (normalize_spec a) as (v & Hv & Hz & _).
  rewrite Hv, Hz; [reflexivity|]. now apply hypot_zero.
Qed.

Lemma direction_of_horizontal (a b : Point) :
  x a < x b -> y b = y a -> Ink.normalize (Ink.sub b a) = Ok (xy 1 0).
Proof.
  intros Hx Hy. rewrite (normalize_nonzero _ (x b - x a)); cbn [Ink.sub x y xy].
  - f_equal. apply xy_eq; [field; lra | rewrite Hy; field; lra].
  - lra.
  - rewrite Hy. ring.
Qed.

Section Horizontal.

Variable points : list Point.
Variable options : StrokeSettings.

Hypothesis enough : (2 <= length points)%nat.
Hypothesis rightwards :
  forall i a b, nth_error points i = Some a -> nth_error points (S i) = Some b ->
    x a < x b /\ y b = y a.

Lemma horizontal_prevVector (k : nat) (st : Ink.LoopState) :
  (k <= length points)%nat ->
  Ink.stateAt points options k = Ok st -> Ink.prevVector st = xy 1 0.
Proof.
  revert st. induction k as [|k IH]; intros st Hk Hst.
  - destruct (initial_spec points enough) as (p0 & p1 & v & H0 & H1 & Hv & Hi).
    unfold Ink.stateAt in Hst. rewrite Hi in Hst. cbn in Hst. injection Hst as <-.
    cbn [Ink.prevVector]. destruct (rightwards 0 p0 p1 H0 H1) as [Hx Hy].
    rewrite (direction_of_horizontal p0 p1 Hx Hy) in Hv. congruence.
  - destruct (stateAt_total points options k enough) as (s & Hs & _); [lia|].
    rewrite stateAt_S, Hs in Hst. cbn [bind] in Hst.
    destruct (iteration_spec points options k s) as (l & Hl & Hit); [lia|].
    rewrite Hit in Hst. injection Hst as <-. cbn [Ink.prevVector].
    destruct (locals_spec points options k s) as
      (l' & Hl' & Hc & _ & _ & Hnext & Hlast & _); [lia|].
    rewrite Hl in Hl'. injection Hl' as <-.
    destruct (Nat.lt_ge_cases (S k) (length points)) as [Hlt|Hge].
    + destruct (Hnext Hlt) as (nx & Hnx & Hv).
      destruct (rightwards k _ nx Hc Hnx) as [Hx Hy].
      rewrite (direction_of_horizontal _ nx Hx Hy) in Hv. congruence.
    + rewrite Hlast by lia. apply (IH s); [lia | assumption].
Qed.

Lemma horizontal_offset (i : nat) (st : Ink.LoopState) (l : Ink.Locals) :
  (i < length points)%nat ->
  Ink.stateAt points options i = Ok st ->
  Ink.locals points options i st = Ok l ->
  Ink.offset l = xy (0 * (Ink.width l / 2)) (- 1 * (Ink.width l / 2)).
Proof.
  intros Hi Hst Hl.
  assert (Hnext_state : exists st', Ink.stateAt points options (S i) = Ok st' /\
                                    Ink.prevVector st' = Ink.vector l).
  { destruct (iteration_spec points options i st Hi) as (l' & Hl' & Hit).
    rewrite Hl in Hl'. injection Hl' as <-.
    eexists; split; [rewrite stateAt_S, Hst; cbn [bind]; exact Hit|]. reflexivity. }
  destruct Hnext_state as (st' & Hst' & Hpv').
  pose proof (horizontal_prevVector i st ltac:(lia) Hst) as Hprev.
  pose proof (horizontal_prevVector (S i) st' ltac:(lia) Hst') as Hvec.
  rewrite Hpv' in Hvec.
  destruct (locals_spec points options i st Hi) as
    (l' & Hl' & _ & _ & _ & _ & _ & Hsv & Hoff).
  rewrite Hl in Hl'. injection Hl' as <-.
  rewrite Hvec, Hprev in Hsv.
  rewrite (normalize_nonzero _ 2) in Hsv by (cbn [Ink.add x y xy]; lra).
  injection Hsv as Hsv. rewrite Hoff, <- Hsv. unfold Ink.mul, Ink.perp.
  cbn [Ink.add x y xy]. apply xy_eq; field.
Qed.

End Horizontal.

(** A stroke drawn from left to right along a horizontal line, with
    [thinning = 0], is outlined by a straight band: point [i] of the
    outline has the [x] of input point [i] and its [y] plus [size / 2],
    and point [2n - 1 - i] has the same [x] and its [y] minus
    [size / 2]. *)
Theorem horizontal_stroke_is_a_band
  (points : list Point) (options : StrokeSettings) :
  (2 <= length points)%nat ->
  thinning options = 0 ->
  (forall i a b, nth_error points i = Some a -> nth_error points (S i) = Some b ->
     x a < x b /\ y b = y a) ->
  exists outline,
    Ink.getStrokeOutlinePoints points options = Ok outline /\
    forall i p, nth_error points i = Some p ->
      nth_error outline i = Some (xy (x p) (y p + size options / 2)) /\
      nth_error outline (2 * length points - 1 - i)
        = Some (xy (x p) (y p - size options / 2)).
Proof.
  intros Hn Ht Hline.
  destruct (outline_points points options Hn) as (o & Ho & _ & Hpts).
  exists o. split; [assumption|]. intros i p Hp.
  assert (Hi : (i < length points)%nat) by (apply nth_error_Some; congruence).
  destruct (Hpts i Hi) as (st_i & loc & Hst & Hloc & Hl & Hr).
  pose proof (horizontal_offset points options Hn Hline i st_i loc Hi Hst Hloc)
    as Hoff.
  pose proof (width_thinning_zero points options i st_i loc Hi Ht Hloc) as Hw.
  destruct (locals_spec points options i st_i Hi) as (loc' & Hloc' & Hc & _).
  rewrite Hloc in Hloc'. injection Hloc' as <-.
  rewrite Hp in Hc. injection Hc as Hc. rewrite <- Hc in Hl, Hr.
  rewrite Hl, Hr, Hoff, Hw. unfold Ink.sub, Ink.add. cbn [x y xy].
  split; f_equal; apply xy_eq; field.
Qed.

Lemma horizontal_stroke_is_a_band_witness :
  exists outline,
    Ink.getStrokeOutlinePoints [xy 0 7; xy 2 7; xy 5 7]
      (mkSettings 10 0 0.5 "#1c1917" true) = Ok outline /\
    forall i p, nth_error [xy 0 7; xy 2 7; xy 5 7] i = Some p ->
      nth_error outline i = Some (xy (x p) (y p + 10 / 2)) /\
      nth_error outline (2 * 3 - 1 - i) = Some (xy (x p) (y p - 10 / 2)).
Proof.
  apply (horizontal_stroke_is_a_band [xy 0 7; xy 2 7; xy 5 7]
           (mkSettings 10 0 0.5 "#1c1917" true)).
  - simpl. lia.
  - reflexivity.
  - intros [|[|[|i]]] a b Ha Hb; simpl in Ha, Hb;
      try discriminate; injection Ha as <-; injection Hb as <-; simpl; lra.
Defined.

Section Coincident.

Variable points : list Point.
Variable options : StrokeSettings.
Variable c : Point.

Hypothesis enough : (2 <= length points)%nat.
Hypothesis all_at_c : Forall (fun p => Stroke.samePlace p c) points.

Lemma at_c (i : nat) (p : Point) :
  nth_error points i = Some p -> x p = x c /\ y p = y c.
Proof.
  intros Hp. rewrite Forall_forall in all_at_c.
  apply all_at_c. eapply nth_error_In. exact Hp.
Qed.

Lemma sub_coincident (i j : nat) (p q : Point) :
  nth_error points i = Some p -> nth_error points j = Some q ->
  Ink.normalize (Ink.sub q p) = Ok (xy 0 0).
Proof.
  intros Hp Hq. destruct (at_c i p Hp) as [Hx Hy].
  destruct (at_c j q Hq) as [Hx' Hy'].
  apply normalize_zero_vector; cbn [Ink.sub x y xy]; lra.
Qed.

Lemma coincident_prevVector (k : nat) (st : Ink.LoopState) :
  (k <= length points)%nat ->
  Ink.stateAt points options k = Ok st -> Ink.prevVector st = xy 0 0.
Proof.
  revert st. induction k as [|k IH]; intros st Hk Hst.
  - destruct (initial_spec points enough) as (p0 & p1 & v & H0 & H1 & Hv & Hi).
    unfold Ink.stateAt in Hst. rewrite Hi in Hst. cbn in Hst. injection Hst as <-.
    cbn [Ink.prevVector]. rewrite (sub_coincident 0 1 p0 p1 H0 H1) in Hv.
    congruence.
  - destruct (stateAt_total points options k enough) as (s & Hs & _); [lia|].
    rewrite stateAt_S, Hs in Hst. cbn [bind] in Hst.
    destruct (iteration_spec points options k s) as (l & Hl & Hit); [lia|].
    rewrite Hit in Hst. injection Hst as <-. cbn [Ink.prevVector].
    destruct (locals_spec points options k s) as
      (l' & Hl' & Hc & _ & _ & Hnext & Hlast & _); [lia|].
    rewrite Hl in Hl'. injection Hl' as <-.
    destruct (Nat.lt_ge_cases (S k) (length points)) as [Hlt|Hge].
    + destruct (Hnext Hlt) as (nx & Hnx & Hv).
      rewrite (sub_coincident k (S k) _ nx Hc Hnx) in Hv. congruence.
    + rewrite Hlast by lia. apply (IH s); [lia | assumption].
Qed.

Lemma coincident_offset (i : nat) (st : Ink.LoopState) (l : Ink.Locals) :
  (i < length points)%nat ->
  Ink.stateAt points options i = Ok st ->
  Ink.locals points options i st = Ok l ->
  Ink.offset l = xy 0 0.
Proof.
  intros Hi Hst Hl.
  destruct (iteration_spec points options i st Hi) as (l' & Hl' & Hit).
  rewrite Hl in Hl'. injection Hl' as <-.
  assert (Hst' : Ink.stateAt points options (S i) = Ok
                   (Ink.mkLoop (Ink.l_pressure l) (Ink.vector l)
                      (Ink.leftPts st ++ [Ink.sub (Ink.curr l) (Ink.offset l)])
                      (Ink.rightPts st ++ [Ink.add (Ink.curr l) (Ink.offset l)])))
    by (rewrite stateAt_S, Hst; cbn [bind]; exact Hit).
  pose proof (coincident_prevVector i st ltac:(lia) Hst) as Hprev.
  pose proof (coincident_prevVector (S i) _ ltac:(lia) Hst') as Hvec.
  cbn [Ink.prevVector] in Hvec.
  destruct (locals_spec points options i st Hi) as
    (l' & Hl' & _ & _ & _ & _ & _ & Hsv & Hoff).
  rewrite Hl in Hl'. injection Hl' as <-.
  rewrite Hvec, Hprev in Hsv.
  rewrite normalize_zero_vector in Hsv by (cbn [Ink.add x y xy]; lra).
  injection Hsv as Hsv. rewrite Hoff, <- Hsv. apply offset_of_zero.
Qed.

End Coincident.

(** A stroke whose points are all at one place has no width at all,
    whatever the settings and pressures: every point of its outline is
    at that place. *)
Theorem coincident_stroke_collapses
  (points : list Point) (options : StrokeSettings) (c : Point) :
  (2 <= length points)%nat ->
  Forall (fun p => Stroke.samePlace p c) points ->
  exists outline,
    Ink.getStrokeOutlinePoints points options = Ok outline /\
    length outline = (2 * length points)%nat /\
    Forall (fun q => Stroke.samePlace q c) outline.
Proof.
  intros Hn Hall.
  destruct (outline_points points options Hn) as (o & Ho & Hlen & Hpts).
  exists o. split; [assumption|]. split; [assumption|].
  assert (Hside : forall i, (i < length points)%nat ->
            exists l r, nth_error o i = Some l /\
                        nth_error o (2 * length points - 1 - i) = Some r /\
                        Stroke.samePlace l c /\ Stroke.samePlace r c).
  { intros i Hi. destruct (Hpts i Hi) as (st_i & loc & Hst & Hloc & Hl & Hr).
    pose proof (coincident_offset points options c Hn Hall i st_i loc Hi Hst Hloc)
      as Hoff.
    destruct (locals_spec points options i st_i Hi) as (loc' & Hloc' & Hc & _).
    rewrite Hloc in Hloc'. injection Hloc' as <-.
    destruct (at_c points c Hall i _ Hc) as [Hx Hy].
    eexists _, _. split; [exact Hl|]. split; [exact Hr|].
    rewrite Hoff. unfold Stroke.samePlace, Ink.sub, Ink.add. cbn [x y xy].
    repeat split; lra. }
  apply Forall_forall. intros q Hq. apply In_nth_error in Hq as (j & Hj).
  assert (Hjlt : (j < 2 * length points)%nat)
    by (rewrite <- Hlen; apply nth_error_Some; congruence).
  destruct (Nat.lt_ge_cases j (length points)) as [Hleft|Hright].
  - destruct (Hside j Hleft) as (l & r & Hl & _ & Hsl & _). congruence.
  - destruct (Hside (2 * length points - 1 - j)%nat ltac:(lia))
      as (l & r & _ & Hr & _ & Hsr).
    replace (2 * length points - 1 - (2 * length points - 1 - j))%nat with j in Hr
      by lia.
    congruence.
Qed.

Lemma coincident_stroke_collapses_witness :
  exists outline,
    Ink.getStrokeOutlinePoints
      [mkPoint 5 6 (Some 0.1) None; mkPoint 5 6 (Some 1) None; mkPoint 5 6 None None]
      App.INITIAL_SETTINGS = Ok outline /\
    length outline = 6%nat /\
    Forall (fun q => Stroke.samePlace q (xy 5 6)) outline.
Proof.
  apply (coincident_stroke_collapses
           [mkPoint 5 6 (Some 0.1) None; mkPoint 5 6 (Some 1) None;
            mkPoint 5 6 None None] App.INITIAL_SETTINGS (xy 5 6)).
  - simpl. lia.
  - repeat constructor.
Defined.

(** ** From stroke to path *)

(** A stroke of [n >= 2] points is drawn as one closed path of exactly
    [2n - 1] curve segments, filled with the colour passed in; neither
    the outline builder nor the serializer faults on the way. *)
Theorem stroke_path_has_2n_minus_1_curves (toFixed : R -> nat -> string)
  (points : list Point) (fill_color : string) (opts : StrokeSettings) :
  (2 <= length points)%nat ->
  (forall v digits, Spec.countLetter "Q" (toFixed v digits) = 0%nat) ->
  (forall v digits, Spec.countLetter "Z" (toFixed v digits) = 0%nat) ->
  exists path,
    Canvas.drawStrokeToCtx toFixed points fill_color opts
      = Ok (Some (path, fill_color)) /\
    Spec.countLetter "Q" path = (2 * length points - 1)%nat /\
    Spec.countLetter "Z" path = 1%nat.
Proof.
  intros Hn HQ HZ. unfold Canvas.drawStrokeToCtx.
  destruct (Nat.ltb_spec (length points) 2); [lia|].
  destruct (outline_points points opts Hn) as (o & Ho & Hlen & _).
  rewrite Ho. cbn [bind].
  destruct o as [|start o']; [cbn in Hlen; lia|].
  rewrite (getSvgPathFromStroke_refines toFixed (start :: o') start eq_refl).
  cbn [bind ret]. eexists; split; [reflexivity|].
  rewrite !renderPath_count by assumption.
  unfold Spec.serialize. rewrite length_map, length_seq, Hlen.
  cbn [Spec.countLetter Ascii.eqb Bool.eqb]. lia.
Qed.

Lemma stroke_path_has_2n_minus_1_curves_witness :
  exists path,
    Canvas.drawStrokeToCtx (fun _ _ => "0"%string)
      [xy 0 0; xy 3 4; xy 6 8] "#1c1917" App.INITIAL_SETTINGS
      = Ok (Some (path, "#1c1917"%string)) /\
    Spec.countLetter "Q" path = 5%nat /\
    Spec.countLetter "Z" path = 1%nat.
Proof.
  apply (stroke_path_has_2n_minus_1_curves (fun _ _ => "0"%string)
           [xy 0 0; xy 3 4; xy 6 8]).
  - simpl. lia.
  - intros v digits. reflexivity.
  - intros v digits. reflexivity.
Defined.

(** ** What [getPoint] returns *)

(** The simulated pressure, spelled out. *)
Lemma getPoint_simulated (rect : Canvas.DOMRect) (now : R)
  (e : Canvas.PointerEvent) (prior : list Point) (last : Point) :
  Canvas.e_pressure e = 0 \/ Canvas.e_pressure e = 0.5 ->
  prior <> [] ->
  nth_error prior (length prior - 1) = Some last ->
  let px := Canvas.clientX e - Canvas.rect_left rect in
  let py := Canvas.clientY e - Canvas.rect_top rect in
  let dt := now - match time last with Some t0 => t0 | None => 0 end in
  let v := Js.hypot (px - x last) (py - y last)
           / (if Req_dec_T dt 0 then 1 else dt) in
  Canvas.getPoint rect now e prior
  = Ok (mkPoint px py (Some (Rmax 0.1 (Rmin 1 (1 - Rmin v 2.5 / 2.5))))
          (Some now)).
Proof.
  intros Hraw Hne Hlast. cbv zeta. unfold Canvas.getPoint. cbv zeta.
  rewrite (proj2 (proj1 (neutral_test _)) Hraw).
  destruct (Nat.ltb_spec 0 (length prior)) as [Hlen|Hlen];
    [|destruct prior; [contradiction | cbn in Hlen; lia]].
  unfold Js.at_index. rewrite Hlast. cbn [bind].
  rewrite velocity_spec. cbn [bind]. rewrite div_ok by lra. cbn [bind ret].
  unfold Js.max, Js.min. replace 1.0 with 1 by lra. reflexivity.
Qed.

Lemma getPoint_cases (rect : Canvas.DOMRect) (now : R)
  (e : Canvas.PointerEvent) (prior : list Point) :
  exists v,
    Canvas.getPoint rect now e prior
    = Ok (mkPoint (Canvas.clientX e - Canvas.rect_left rect)
            (Canvas.clientY e - Canvas.rect_top rect) (Some v) (Some now)) /\
    (Canvas.e_pressure e = 0 \/ Canvas.e_pressure e = 0.5 -> 0.1 <= v <= 1) /\
    (Canvas.e_pressure e <> 0 /\ Canvas.e_pressure e <> 0.5 ->
       v = Canvas.e_pressure e).
Proof.
  destruct (Js.eqb (Canvas.e_pressure e) 0 || Js.eqb (Canvas.e_pressure e) 0.5)
    eqn:E.
  - pose proof (proj1 (proj1 (neutral_test _)) E) as Hraw.
    destruct (Nat.lt_ge_cases 0 (length prior)) as [Hlen|Hlen].
    + destruct (at_index_ok prior (length prior - 1)) as (last & Hlast & _); [lia|].
      assert (Hne : prior <> []) by (destruct prior; [cbn in Hlen; lia | discriminate]).
      rewrite (getPoint_simulated rect now e prior last Hraw Hne Hlast).
      eexists; split; [reflexivity|]. split.
      * intros _. split; [apply Rmax_l|].
        apply Rmax_lub; [lra | apply Rmin_l].
      * intros [H0 H5]. destruct Hraw; contradiction.
    + assert (Hnil : prior = []) by (destruct prior; [reflexivity | cbn in Hlen; lia]).
      subst prior. unfold Canvas.getPoint. cbv zeta. rewrite E.
      cbn [length Nat.ltb Nat.leb bind ret].
      eexists; split; [reflexivity|]. split.
      * intros _. lra.
      * intros [H0 H5]. destruct Hraw; contradiction.
  - pose proof (proj1 (proj2 (neutral_test _)) E) as [H0 H5].
    unfold Canvas.getPoint. cbv zeta. rewrite E. cbn [bind ret].
    eexists; split; [reflexivity|]. split.
    + intros [?|?]; contradiction.
    + intros _. reflexivity.
Qed.

(** Every point [getPoint] returns carries the time of the call and a
    pressure that is present and not [0]; when the raw pressure is [0] or
    [0.5] the pressure it carries lies in [[0.1, 1]]. *)
Theorem getPoint_pressure_never_zero (rect : Canvas.DOMRect) (now : R)
  (e : Canvas.PointerEvent) (prior : list Point) :
  exists p v,
    Canvas.getPoint rect now e prior = Ok p /\
    pressure p = Some v /\ v <> 0 /\
    time p = Some now /\
    (Canvas.e_pressure e = 0 \/ Canvas.e_pressure e = 0.5 -> 0.1 <= v <= 1) /\
    (Canvas.e_pressure e <> 0 /\ Canvas.e_pressure e <> 0.5 ->
       v = Canvas.e_pressure e).
Proof.
  destruct (getPoint_cases rect now e prior) as (v & Hp & Hsim & Hdev).
  eexists _, v. split; [exact Hp|]. cbn [pressure time].
  split; [reflexivity|]. split; [|split; [reflexivity | split; assumption]].
  destruct (Req_dec_T (Canvas.e_pressure e) 0) as [E0|N0].
  - specialize (Hsim (or_introl E0)). lra.
  - destruct (Req_dec_T (Canvas.e_pressure e) 0.5) as [E5|N5].
    + specialize (Hsim (or_intror E5)). lra.
    + rewrite (Hdev (conj N0 N5)). assumption.
Qed.

Lemma simulated_antitone (v w : R) :
  v <= w ->
  Rmax 0.1 (Rmin 1 (1 - Rmin w 2.5 / 2.5))
  <= Rmax 0.1 (Rmin 1 (1 - Rmin v 2.5 / 2.5)).
Proof.
  intros H. unfold Rmin, Rmax.
  repeat (decide_innermost; try lra).
Qed.

Lemma simulated_floor (v : R) :
  2.25 <= v -> Rmax 0.1 (Rmin 1 (1 - Rmin v 2.5 / 2.5)) = 0.1.
Proof.
  intros H. unfold Rmin, Rmax.
  repeat (decide_innermost; try lra).
Qed.

Lemma divisor_positive (dt : R) :
  0 <= dt -> 0 < (if Req_dec_T dt 0 then 1 else dt).
Proof. intros H. destruct (Req_dec_T dt 0); lra. Qed.

(** Slower is thicker.  Of two samples taken at the same time after the
    same prior point (the clock not running backwards), both with a
    neutral raw pressure, the one farther from the prior point gets the
    lower pressure, or the same. *)
Theorem slower_is_thicker (rect : Canvas.DOMRect) (now : R)
  (near far : Canvas.PointerEvent) (prior : list Point) (last : Point) :
  Canvas.e_pressure near = 0 \/ Canvas.e_pressure near = 0.5 ->
  Canvas.e_pressure far = 0 \/ Canvas.e_pressure far = 0.5 ->
  prior <> [] ->
  nth_error prior (length prior - 1) = Some last ->
  0 <= now - match time last with Some t0 => t0 | None => 0 end ->
  Js.hypot (Canvas.clientX near - Canvas.rect_left rect - x last)
           (Canvas.clientY near - Canvas.rect_top rect - y last)
  <= Js.hypot (Canvas.clientX far - Canvas.rect_left rect - x last)
              (Canvas.clientY far - Canvas.rect_top rect - y last) ->
  exists p q v w,
    Canvas.getPoint rect now near prior = Ok p /\ pressure p = Some v /\
    Canvas.getPoint rect now far prior = Ok q /\ pressure q = Some w /\
    w <= v.
Proof.
  intros Hn Hf Hne Hlast Hdt Hd.
  rewrite (getPoint_simulated rect now near prior last Hn Hne Hlast).
  rewrite (getPoint_simulated rect now far prior last Hf Hne Hlast).
  eexists _, _, _, _. split; [reflexivity|]. split; [reflexivity|].
  split; [reflexivity|]. split; [reflexivity|].
  apply simulated_antitone. apply Rmult_le_compat_r; [|exact Hd].
  left. apply Rinv_0_lt_compat. now apply divisor_positive.
Qed.

Lemma slower_is_thicker_witness :
  exists p q v w,
    Canvas.getPoint (Canvas.mkRect 0 0) 20 (Canvas.mkEvent 3 4 0.5)
      [mkPoint 0 0 (Some 0.1) (Some 10)] = Ok p /\ pressure p = Some v /\
    Canvas.getPoint (Canvas.mkRect 0 0) 20 (Canvas.mkEvent 6 8 0)
      [mkPoint 0 0 (Some 0.1) (Some 10)] = Ok q /\ pressure q = Some w /\
    w <= v.
Proof.
  apply (slower_is_thicker (Canvas.mkRect 0 0) 20 (Canvas.mkEvent 3 4 0.5)
           (Canvas.mkEvent 6 8 0) [mkPoint 0 0 (Some 0.1) (Some 10)]
           (mkPoint 0 0 (Some 0.1) (Some 10))).
  - right. reflexivity.
  - left. reflexivity.
  - discriminate.
  - reflexivity.
  - simpl. lra.
  - simpl. rewrite (hypot_eq _ _ 5) by lra. rewrite (hypot_eq _ _ 10) by lra. lra.
Defined.

(** From 2.25 units per millisecond upwards the simulated pressure is at
    its floor [0.1]: with a neutral raw pressure and time having passed,
    a sample at least [2.25] times as far from the prior point as the
    elapsed time gets the pressure [0.1]. *)
Theorem fast_motion_bottoms_out (rect : Canvas.DOMRect) (now : R)
  (e : Canvas.PointerEvent) (prior : list Point) (last : Point) :
  Canvas.e_pressure e = 0 \/ Canvas.e_pressure e = 0.5 ->
  prior <> [] ->
  nth_error prior (length prior - 1) = Some last ->
  let dt := now - match time last with Some t0 => t0 | None => 0 end in
  0 < dt ->
  2.25 * dt <= Js.hypot (Canvas.clientX e - Canvas.rect_left rect - x last)
                        (Canvas.clientY e - Canvas.rect_top rect - y last) ->
  exists p,
    Canvas.getPoint rect now e prior = Ok p /\ pressure p = Some 0.1.
Proof.
  intros Hraw Hne Hlast dt Hdt Hd.
  rewrite (getPoint_simulated rect now e prior last Hraw Hne Hlast).
  eexists; split; [reflexivity|]. cbn [pressure]. f_equal.
  apply simulated_floor. fold dt.
  destruct (Req_dec_T dt 0) as [E|_]; [lra|].
  apply Rmult_le_reg_r with dt; [assumption|].
  unfold Rdiv. rewrite Rmult_assoc, Rinv_l by lra. lra.
Qed.

Lemma fast_motion_bottoms_out_witness :
  exists p,
    Canvas.getPoint (Canvas.mkRect 0 0) 12 (Canvas.mkEvent 3 4 0.5)
      [mkPoint 0 0 (Some 0.1) (Some 10)] = Ok p /\
    pressure p = Some 0.1.
Proof.
  apply (fast_motion_bottoms_out (Canvas.mkRect 0 0) 12 (Canvas.mkEvent 3 4 0.5)
           [mkPoint 0 0 (Some 0.1) (Some 10)] (mkPoint 0 0 (Some 0.1) (Some 10))).
  - right. reflexivity.
  - discriminate.
  - reflexivity.
  - simpl. lra.
  - simpl. rewrite (hypot_eq _ _ 5) by lra. lra.
Defined.

(** ** Undo, redo and clear *)

Lemma at_index_last {A} (l : list A) (a : A) :
  Js.at_index (l ++ [a]) (length (l ++ [a]) - 1) = Ok a.
Proof.
  unfold Js.at_index. rewrite length_app. cbn [length].
  replace (length l + 1 - 1)%nat with (length l) by lia.
  rewrite nth_error_app2 by lia. now rewrite Nat.sub_diag.
Qed.

Lemma length_snoc_nonzero {A} (l : list A) (a : A) :
  (length (l ++ [a]) =? 0)%nat = false.
Proof. apply Nat.eqb_neq. rewrite length_app. cbn. lia. Qed.

Lemma handleUndo_snoc (d : bool) (cur : list Point)
  (h r : list DrawnStroke) (s : DrawnStroke) :
  App.handleUndo (Canvas.mkState d cur (h ++ [s]) r)
  = Ok (Canvas.mkState d cur h (r ++ [s])).
Proof.
  unfold App.handleUndo.
  cbn [Canvas.history Canvas.redoStack Canvas.isDrawing Canvas.currentPoints].
  rewrite length_snoc_nonzero, at_index_last. cbn [bind ret].
  now rewrite removelast_last.
Qed.

Lemma handleRedo_snoc (d : bool) (cur : list Point)
  (h r : list DrawnStroke) (s : DrawnStroke) :
  App.handleRedo (Canvas.mkState d cur h (r ++ [s]))
  = Ok (Canvas.mkState d cur (h ++ [s]) r).
Proof.
  unfold App.handleRedo.
  cbn [Canvas.history Canvas.redoStack Canvas.isDrawing Canvas.currentPoints].
  rewrite length_snoc_nonzero, at_index_last. cbn [bind ret].
  now rewrite removelast_last.
Qed.

Lemma handleUndo_nil (d : bool) (cur : list Point) (r : list DrawnStroke) :
  App.handleUndo (Canvas.mkState d cur [] r) = Ok (Canvas.mkState d cur [] r).
Proof. reflexivity. Qed.

Lemma handleRedo_nil (d : bool) (cur : list Point) (h : list DrawnStroke) :
  App.handleRedo (Canvas.mkState d cur h []) = Ok (Canvas.mkState d cur h []).
Proof. reflexivity. Qed.


Lemma snoc_cases {A} (l : list A) : l = [] \/ exists l' a, l = l' ++ [a].
Proof.
  destruct l as [|a0 l0]; [left; reflexivity|]. right.
  destruct (@exists_last A (a0 :: l0)) as (l' & a & E); [discriminate|].
  now exists l', a.
Qed.

(** Redo takes back an undo and undo takes back a redo: after undoing
    with a non-empty history, redo restores the state exactly; after
    redoing with a non-empty redo stack, undo restores it exactly. *)
Theorem undo_redo_round_trip (st : Canvas.State) :
  (Canvas.history st <> [] ->
     exists st', App.handleUndo st = Ok st' /\ App.handleRedo st' = Ok st) /\
  (Canvas.redoStack st <> [] ->
     exists st', App.handleRedo st = Ok st' /\ App.handleUndo st' = Ok st).
Proof.
  destruct st as [d cur h r]. cbn [Canvas.history Canvas.redoStack]. split.
  - intros Hne. destruct (snoc_cases h) as [->|(h' & s & ->)]; [contradiction|].
    eexists; split; [apply handleUndo_snoc | apply handleRedo_snoc].
  - intros Hne. destruct (snoc_cases r) as [->|(r' & s & ->)]; [contradiction|].
    eexists; split; [apply handleRedo_snoc | apply handleUndo_snoc].
Qed.

Lemma undo_redo_round_trip_witness :
  (exists st',
     App.handleUndo
       (Canvas.mkState false []
          [mkStroke [xy 0 0; xy 3 4] "#1c1917" App.INITIAL_SETTINGS] []) = Ok st' /\
     App.handleRedo st'
     = Ok (Canvas.mkState false []
             [mkStroke [xy 0 0; xy 3 4] "#1c1917" App.INITIAL_SETTINGS] [])) /\
  (exists st',
     App.handleRedo
       (Canvas.mkState false [] []
          [mkStroke [xy 0 0; xy 3 4] "eraser" App.INITIAL_SETTINGS]) = Ok st' /\
     App.handleUndo st'
     = Ok (Canvas.mkState false [] []
             [mkStroke [xy 0 0; xy 3 4] "eraser" App.INITIAL_SETTINGS])).
Proof.
  split.
  - apply (undo_redo_round_trip
             (Canvas.mkState false []
                [mkStroke [xy 0 0; xy 3 4] "#1c1917" App.INITIAL_SETTINGS] [])).
    discriminate.
  - apply (undo_redo_round_trip
             (Canvas.mkState false [] []
                [mkStroke [xy 0 0; xy 3 4] "eraser" App.INITIAL_SETTINGS])).
    discriminate.
Defined.

(** Undo and redo only move strokes between the two stacks: neither
    faults, both leave the in-progress stroke alone, and the history
    followed by the redo stack read backwards is the same list of
    strokes before and after.  On an empty stack each is a no-op. *)
Theorem undo_redo_keep_the_timeline (st : Canvas.State) :
  (exists st',
     App.handleUndo st = Ok st' /\
     Canvas.history st' ++ rev (Canvas.redoStack st')
       = Canvas.history st ++ rev (Canvas.redoStack st) /\
     Canvas.currentPoints st' = Canvas.currentPoints st /\
     Canvas.isDrawing st' = Canvas.isDrawing st /\
     (Canvas.history st = [] -> st' = st)) /\
  (exists st',
     App.handleRedo st = Ok st' /\
     Canvas.history st' ++ rev (Canvas.redoStack st')
       = Canvas.history st ++ rev (Canvas.redoStack st) /\
     Canvas.currentPoints st' = Canvas.currentPoints st /\
     Canvas.isDrawing st' = Canvas.isDrawing st /\
     (Canvas.redoStack st = [] -> st' = st)).
Proof.
  destruct st as [d cur h r]. split.
  - destruct (snoc_cases h) as [->|(h' & s & ->)].
    + eexists; split; [apply handleUndo_nil|]. repeat split.
    + eexists; split; [apply handleUndo_snoc|].
      cbn [Canvas.history Canvas.redoStack Canvas.currentPoints Canvas.isDrawing].
      rewrite rev_app_distr, <- app_assoc. cbn [rev app].
      repeat split. intros E. now destruct h'.
  - destruct (snoc_cases r) as [->|(r' & s & ->)].
    + eexists; split; [apply handleRedo_nil|]. repeat split.
    + eexists; split; [apply handleRedo_snoc|].
      cbn [Canvas.history Canvas.redoStack Canvas.currentPoints Canvas.isDrawing].
      rewrite rev_app_distr, <- app_assoc. cbn [rev app].
      repeat split. intros E. now destruct r'.
Qed.

(** What pointer-up does while a stroke is in progress, by the number
    of points its render saw. *)
Lemma handlePointerUpFrom_drawing (canvas_settings : StrokeSettings)
  (tool : ToolType) (seen : Canvas.State)
  (cur : list Point) (h r : list DrawnStroke) :
  Canvas.handlePointerUpFrom canvas_settings tool seen
    (Canvas.mkState true cur h r)
  = if (1 <? length (Canvas.currentPoints seen))%nat then
      Canvas.mkState false []
        (Canvas.history seen
           ++ [mkStroke (Canvas.currentPoints seen)
                 (match tool with
                  | ERASER => "eraser"%string
                  | PEN => color canvas_settings
                  end) canvas_settings]) []
    else Canvas.mkState false [] h r.
Proof.
  unfold Canvas.handlePointerUpFrom.
  cbn [negb Canvas.currentPoints Canvas.history Canvas.redoStack Canvas.isDrawing].
  now destruct (1 <? length (Canvas.currentPoints seen))%nat.
Qed.

Lemma handlePointerUpFrom_idle (canvas_settings : StrokeSettings)
  (tool : ToolType) (seen st : Canvas.State) :
  Canvas.isDrawing st = false ->
  Canvas.handlePointerUpFrom canvas_settings tool seen st = st.
Proof. intros H. unfold Canvas.handlePointerUpFrom. now rewrite H. Qed.

(** With an up-to-date render the two embeddings of each handler
    agree. *)
Lemma handlers_agree_when_rendered (canvas_settings : StrokeSettings)
  (tool : ToolType) (e : App.KeyboardEvent) (st : Canvas.State) :
  Canvas.handlePointerUpFrom canvas_settings tool st st
    = Canvas.handlePointerUp canvas_settings tool st /\
  App.handleUndoFrom st st = App.handleUndo st /\
  App.handleRedoFrom st st = App.handleRedo st /\
  App.handleClearFrom st st = App.handleClear st /\
  App.handleKeyDownFrom e st st = App.handleKeyDown e st.
Proof. repeat split. Qed.

(** Committing a stroke forgets what was undone: a pointer-up that ends
    a stroke in progress and whose render saw at least 2 points of it
    leaves the redo stack empty, whatever had been undone before; once
    that state is rendered, redo changes nothing. *)
Theorem commit_forgets_redo (canvas_settings : StrokeSettings) (tool : ToolType)
  (seen st : Canvas.State) :
  Canvas.isDrawing st = true ->
  (2 <= length (Canvas.currentPoints seen))%nat ->
  let st' := Canvas.handlePointerUpFrom canvas_settings tool seen st in
  Canvas.redoStack st' = [] /\ App.handleRedoFrom st' st' = Ok st'.
Proof.
  intros Hd Hn. cbv zeta. destruct st as [d cur h r]. cbn in Hd. subst d.
  rewrite handlePointerUpFrom_drawing.
  destruct (Nat.ltb_spec 1 (length (Canvas.currentPoints seen))); [|lia].
  split; reflexivity.
Qed.

Lemma commit_forgets_redo_witness :
  Canvas.redoStack
    (Canvas.handlePointerUpFrom App.INITIAL_SETTINGS PEN
       (Canvas.mkState true [xy 0 0; xy 3 4] []
          [mkStroke [xy 1 1; xy 5 5] "#dc2626" App.INITIAL_SETTINGS])
       (Canvas.mkState true [xy 0 0; xy 3 4; xy 6 8] []
          [mkStroke [xy 1 1; xy 5 5] "#dc2626" App.INITIAL_SETTINGS])) = [] /\
  App.handleRedoFrom
    (Canvas.handlePointerUpFrom App.INITIAL_SETTINGS PEN
       (Canvas.mkState true [xy 0 0; xy 3 4] []
          [mkStroke [xy 1 1; xy 5 5] "#dc2626" App.INITIAL_SETTINGS])
       (Canvas.mkState true [xy 0 0; xy 3 4; xy 6 8] []
          [mkStroke [xy 1 1; xy 5 5] "#dc2626" App.INITIAL_SETTINGS]))
    (Canvas.handlePointerUpFrom App.INITIAL_SETTINGS PEN
       (Canvas.mkState true [xy 0 0; xy 3 4] []
          [mkStroke [xy 1 1; xy 5 5] "#dc2626" App.INITIAL_SETTINGS])
       (Canvas.mkState true [xy 0 0; xy 3 4; xy 6 8] []
          [mkStroke [xy 1 1; xy 5 5] "#dc2626" App.INITIAL_SETTINGS]))
  = Ok (Canvas.handlePointerUpFrom App.INITIAL_SETTINGS PEN
          (Canvas.mkState true [xy 0 0; xy 3 4] []
             [mkStroke [xy 1 1; xy 5 5] "#dc2626" App.INITIAL_SETTINGS])
          (Canvas.mkState true [xy 0 0; xy 3 4; xy 6 8] []
             [mkStroke [xy 1 1; xy 5 5] "#dc2626" App.INITIAL_SETTINGS])).
Proof.
  apply (commit_forgets_redo App.INITIAL_SETTINGS PEN
           (Canvas.mkState true [xy 0 0; xy 3 4] []
              [mkStroke [xy 1 1; xy 5 5] "#dc2626" App.INITIAL_SETTINGS])
           (Canvas.mkState true [xy 0 0; xy 3 4; xy 6 8] []
              [mkStroke [xy 1 1; xy 5 5] "#dc2626" App.INITIAL_SETTINGS])).
  - reflexivity.
  - simpl. lia.
Defined.

(** Clear empties the history and the redo stack together, but only
    when the history is not empty: after everything has been undone,
    clear does nothing, and redo still brings the last undone stroke
    back. *)
Theorem clear_needs_history (st : Canvas.State) :
  (Canvas.history st <> [] ->
     Canvas.history (App.handleClear st) = [] /\
     Canvas.redoStack (App.handleClear st) = [] /\
     Canvas.currentPoints (App.handleClear st) = Canvas.currentPoints st) /\
  (Canvas.history st = [] ->
     App.handleClear st = st /\
     forall undone stroke, Canvas.redoStack st = undone ++ [stroke] ->
       exists st', App.handleRedo (App.handleClear st) = Ok st' /\
                   Canvas.history st' = [stroke] /\
                   Canvas.redoStack st' = undone).
Proof.
  destruct st as [d cur h r]. unfold App.handleClear.
  cbn [Canvas.history Canvas.redoStack Canvas.currentPoints Canvas.isDrawing].
  split.
  - intros Hne. destruct h; [contradiction|]. cbn. repeat split.
  - intros ->. cbn. split; [reflexivity|]. intros undone stroke ->.
    rewrite handleRedo_snoc. eexists; split; [reflexivity|]. split; reflexivity.
Qed.

Lemma clear_needs_history_witness :
  Canvas.history
    (App.handleClear
       (Canvas.mkState false []
          [mkStroke [xy 0 0; xy 3 4] "#1c1917" App.INITIAL_SETTINGS]
          [mkStroke [xy 1 1; xy 5 5] "#dc2626" App.INITIAL_SETTINGS])) = [] /\
  Canvas.redoStack
    (App.handleClear
       (Canvas.mkState false []
          [mkStroke [xy 0 0; xy 3 4] "#1c1917" App.INITIAL_SETTINGS]
          [mkStroke [xy 1 1; xy 5 5] "#dc2626" App.INITIAL_SETTINGS])) = [] /\
  App.handleClear
    (Canvas.mkState false [] []
       [mkStroke [xy 1 1; xy 5 5] "#dc2626" App.INITIAL_SETTINGS])
  = Canvas.mkState false [] []
      [mkStroke [xy 1 1; xy 5 5] "#dc2626" App.INITIAL_SETTINGS].
Proof.
  destruct (clear_needs_history
              (Canvas.mkState false []
                 [mkStroke [xy 0 0; xy 3 4] "#1c1917" App.INITIAL_SETTINGS]
                 [mkStroke [xy 1 1; xy 5 5] "#dc2626" App.INITIAL_SETTINGS]))
    as [Hfull _].
  destruct (clear_needs_history
              (Canvas.mkState false [] []
                 [mkStroke [xy 1 1; xy 5 5] "#dc2626" App.INITIAL_SETTINGS]))
    as [_ Hempty].
  destruct (Hfull ltac:(discriminate)) as (H1 & H2 & _).
  destruct (Hempty eq_refl) as (H3 & _).
  exact (conj H1 (conj H2 H3)).
Defined.

(** ** Collecting the points of a stroke *)

Lemma getPoint_sampled (rect : Canvas.DOMRect) (now : R)
  (e : Canvas.PointerEvent) (prior : list Point) :
  exists p, Canvas.getPoint rect now e prior = Ok p /\ Stroke.sampled p /\
            time p = Some now.
Proof.
  destruct (getPoint_cases rect now e prior) as (v & Hp & Hsim & Hdev).
  eexists; split; [exact Hp|]. split; [|reflexivity]. split.
  - exists v. split; [reflexivity|].
    destruct (Req_dec_T (Canvas.e_pressure e) 0) as [E0|N0].
    + specialize (Hsim (or_introl E0)). lra.
    + destruct (Req_dec_T (Canvas.e_pressure e) 0.5) as [E5|N5].
      * specialize (Hsim (or_intror E5)). lra.
      * rewrite (Hdev (conj N0 N5)). assumption.
  - now exists now.
Qed.

Lemma spaced_nil : Stroke.spaced [].
Proof. intros i a b Ha. destruct i; discriminate. Qed.

Lemma spaced_one (p : Point) : Stroke.spaced [p].
Proof. intros i a b _ Hb. cbn in Hb. destruct i; discriminate. Qed.

Lemma spaced_snoc (l : list Point) (p : Point) :
  Stroke.spaced l ->
  (forall last, nth_error l (length l - 1) = Some last -> l <> [] ->
     1 <= Js.hypot (x p - x last) (y p - y last)) ->
  Stroke.spaced (l ++ [p]).
Proof.
  intros Hl Hp i a b Ha Hb.
  assert (Hi : (S i < length (l ++ [p]))%nat) by (apply nth_error_Some; congruence).
  rewrite length_app in Hi. cbn in Hi.
  rewrite nth_error_app1 in Ha by lia.
  destruct (Nat.eq_dec (S i) (length l)) as [E|N].
  - rewrite nth_error_app2 in Hb by lia. rewrite E, Nat.sub_diag in Hb.
    injection Hb as <-. apply Hp.
    + now replace (length l - 1)%nat with i by lia.
    + destruct l; [cbn in E; lia | discriminate].
  - rewrite nth_error_app1 in Hb by lia. now apply (Hl i).
Qed.

Lemma ltb_false (a b : R) : Js.ltb a b = false -> b <= a.
Proof.
  unfold Js.ltb. destruct (Rlt_dec a b); [discriminate|]. intros _. lra.
Qed.

(** The loop of [handlePointerMove] only appends: it never faults, keeps
    the points it was given, adds at most one point per event, and every
    point it adds is a sample at least one unit from its predecessor. *)
Lemma appendEvents_spec (rect : Canvas.DOMRect)
  (events : list (Canvas.PointerEvent * R)) :
  forall next, Forall Stroke.sampled next -> Stroke.spaced next ->
  exists added,
    Canvas.appendEvents rect events next = Ok (next ++ added) /\
    (length added <= length events)%nat /\
    Forall Stroke.sampled (next ++ added) /\
    Stroke.spaced (next ++ added).
Proof.
  induction events as [|[evt now] rest IH]; intros next Hs Hsp.
  - exists []. cbn. rewrite app_nil_r. repeat split; auto.
  - cbn [Canvas.appendEvents].
    destruct (getPoint_sampled rect now evt next) as (pt & -> & Hpt & _).
    cbn [bind].
    assert (Hpush : Stroke.spaced (next ++ [pt]) ->
              exists added,
                Canvas.appendEvents rect rest (next ++ [pt]) = Ok (next ++ added) /\
                (length added <= length ((evt, now) :: rest))%nat /\
                Forall Stroke.sampled (next ++ added) /\
                Stroke.spaced (next ++ added)).
    { intros Hsp'.
      destruct (IH (next ++ [pt])) as (added & Ha & Hlen & Hs' & Hsp'');
        [apply Forall_app; split; [assumption | now constructor] | assumption |].
      exists (pt :: added). rewrite <- app_assoc in Ha, Hs', Hsp''.
      cbn [app] in Ha, Hs', Hsp''. repeat split; auto. cbn. lia. }
    destruct (Nat.ltb_spec 0 (length next)) as [Hlen|Hlen].
    + destruct (at_index_ok next (length next - 1)) as (last & Hlast & ->); [lia|].
      cbn [bind].
      destruct (Js.ltb (Js.hypot (x pt - x last) (y pt - y last)) 1) eqn:Hnear.
      * destruct (IH next Hs Hsp) as (added & Ha & Hl & Hs' & Hsp').
        exists added. repeat split; auto. cbn. lia.
      * apply Hpush. apply spaced_snoc; [assumption|].
        intros last' Hlast' _. rewrite Hlast in Hlast'. injection Hlast' as <-.
        now apply ltb_false.
    + apply Hpush. destruct next; [|cbn in Hlen; lia]. apply spaced_one.
Qed.

Lemma handlePointerMove_appends (rect : Canvas.DOMRect)
  (e : Canvas.PointerEvent * R) (coalesced : list (Canvas.PointerEvent * R))
  (st : Canvas.State) :
  Forall Stroke.sampled (Canvas.currentPoints st) ->
  Stroke.spaced (Canvas.currentPoints st) ->
  exists added,
    Canvas.handlePointerMove rect e coalesced st
    = Ok (Canvas.mkState (Canvas.isDrawing st)
            (Canvas.currentPoints st ++ added)
            (Canvas.history st) (Canvas.redoStack st)) /\
    (Canvas.isDrawing st = false -> added = []) /\
    (length added <= Nat.max 1 (length coalesced))%nat /\
    Forall Stroke.sampled (Canvas.currentPoints st ++ added) /\
    Stroke.spaced (Canvas.currentPoints st ++ added).
Proof.
  intros Hs Hsp. unfold Canvas.handlePointerMove.
  destruct (Canvas.isDrawing st) eqn:Hd; cbn [negb].
  - destruct (appendEvents_spec rect
                (if (0 <? length coalesced)%nat then coalesced else [e])
                (Canvas.currentPoints st) Hs Hsp)
      as (added & -> & Hlen & Hs' & Hsp').
    cbn [bind ret]. exists added. split; [reflexivity|].
    split; [discriminate|]. split; [|split; assumption].
    destruct (Nat.ltb_spec 0 (length coalesced)); cbn [length] in Hlen; lia.
  - exists []. rewrite app_nil_r. destruct st as [d cur h r]. cbn in *. subst d.
    repeat split; auto. lia.
Qed.

(** The same loop with nothing assumed of the points it is given: it
    keeps them, adds at most one sample per event, and every point it
    adds is at least one unit from the point before it. *)
Lemma appendEvents_appends (rect : Canvas.DOMRect)
  (events : list (Canvas.PointerEvent * R)) :
  forall next,
  exists added,
    Canvas.appendEvents rect events next = Ok (next ++ added) /\
    (length added <= length events)%nat /\
    Forall Stroke.sampled added /\
    (forall i a b, (length next <= S i)%nat ->
       nth_error (next ++ added) i = Some a ->
       nth_error (next ++ added) (S i) = Some b ->
       1 <= Js.hypot (x b - x a) (y b - y a)).
Proof.
  induction events as [|[evt now] rest IH]; intros next.
  - exists []. rewrite app_nil_r. split; [reflexivity|]. split; [cbn; lia|].
    split; [constructor|]. intros i a b Hi _ Hb.
    assert (S i < length next)%nat by (apply nth_error_Some; congruence). lia.
  - cbn [Canvas.appendEvents].
    destruct (getPoint_sampled rect now evt next) as (pt & -> & Hpt & _).
    cbn [bind].
    assert (Hpush :
              (forall last, nth_error next (length next - 1) = Some last ->
                 next <> [] -> 1 <= Js.hypot (x pt - x last) (y pt - y last)) ->
              exists added,
                Canvas.appendEvents rect rest (next ++ [pt]) = Ok (next ++ added) /\
                (length added <= length ((evt, now) :: rest))%nat /\
                Forall Stroke.sampled added /\
                (forall i a b, (length next <= S i)%nat ->
                   nth_error (next ++ added) i = Some a ->
                   nth_error (next ++ added) (S i) = Some b ->
                   1 <= Js.hypot (x b - x a) (y b - y a))).
    { intros Hfar. destruct (IH (next ++ [pt])) as (added & Ha & Hlen & Hs & Hsp).
      exists (pt :: added). rewrite <- app_assoc in Ha, Hsp. cbn [app] in Ha, Hsp.
      split; [exact Ha|]. split; [cbn; lia|]. split; [now constructor|].
      intros i a b Hi Hia Hib.
      destruct (Nat.eq_dec (S i) (length next)) as [E|N].
      - rewrite nth_error_app1 in Hia by lia.
        rewrite nth_error_app2 in Hib by lia.
        rewrite E, Nat.sub_diag in Hib. injection Hib as <-.
        apply Hfar.
        + now replace (length next - 1)%nat with i by lia.
        + destruct next; [cbn in E; lia | discriminate].
      - apply (Hsp i); try assumption. rewrite length_app. cbn. lia. }
    destruct (Nat.ltb_spec 0 (length next)) as [Hlen|Hlen].
    + destruct (at_index_ok next (length next - 1)) as (last & Hlast & ->); [lia|].
      cbn [bind].
      destruct (Js.ltb (Js.hypot (x pt - x last) (y pt - y last)) 1) eqn:Hnear.
      * destruct (IH next) as (added & Ha & Hl & Hs & Hsp).
        exists added. repeat split; auto. cbn. lia.
      * apply Hpush. intros last' Hlast' _. rewrite Hlast in Hlast'.
        injection Hlast' as <-. now apply ltb_false.
    + apply Hpush. intros last' _ Hne. destruct next; [contradiction | cbn in Hlen; lia].
Qed.

(** A pointer move never drops or changes a point of the stroke in
    progress, whatever that stroke is.  It appends at most one point per
    event, each a sample with pressure and time and at least one unit
    away from the point before it; and when no stroke is in progress it
    appends nothing. *)
Theorem pointer_move_only_appends (rect : Canvas.DOMRect)
  (e : Canvas.PointerEvent * R) (coalesced : list (Canvas.PointerEvent * R))
  (st : Canvas.State) :
  exists added,
    Canvas.handlePointerMove rect e coalesced st
    = Ok (Canvas.mkState (Canvas.isDrawing st)
            (Canvas.currentPoints st ++ added)
            (Canvas.history st) (Canvas.redoStack st)) /\
    (Canvas.isDrawing st = false -> added = []) /\
    (length added <= Nat.max 1 (length coalesced))%nat /\
    Forall Stroke.sampled added /\
    (forall i a b, (length (Canvas.currentPoints st) <= S i)%nat ->
       nth_error (Canvas.currentPoints st ++ added) i = Some a ->
       nth_error (Canvas.currentPoints st ++ added) (S i) = Some b ->
       1 <= Js.hypot (x b - x a) (y b - y a)).
Proof.
  unfold Canvas.handlePointerMove.
  destruct (Canvas.isDrawing st) eqn:Hd; cbn [negb].
  - destruct (appendEvents_appends rect
                (if (0 <? length coalesced)%nat then coalesced else [e])
                (Canvas.currentPoints st))
      as (added & -> & Hlen & Hs & Hsp).
    cbn [bind ret]. exists added. split; [reflexivity|].
    split; [discriminate|]. split; [|split; assumption].
    destruct (Nat.ltb_spec 0 (length coalesced)); cbn [length] in Hlen; lia.
  - exists []. rewrite app_nil_r. destruct st as [d cur h r].
    cbn [Canvas.isDrawing] in Hd. subst d.
    cbn [Canvas.currentPoints Canvas.history Canvas.redoStack Canvas.isDrawing].
    split; [reflexivity|]. split; [reflexivity|]. split; [cbn [length]; lia|].
    split; [constructor|]. intros i a b Hi _ Hb.
    assert (S i < length cur)%nat by (apply nth_error_Some; congruence). lia.
Qed.

Lemma pointer_move_only_appends_witness :
  exists added,
    Canvas.handlePointerMove (Canvas.mkRect 0 0)
      (Canvas.mkEvent 3 4 0.5, 20) []
      (Canvas.mkState false [mkPoint 0 0 (Some 0.1) (Some 10)] [] [])
    = Ok (Canvas.mkState false ([mkPoint 0 0 (Some 0.1) (Some 10)] ++ added) [] []) /\
    added = [].
Proof.
  destruct (pointer_move_only_appends (Canvas.mkRect 0 0)
              (Canvas.mkEvent 3 4 0.5, 20) []
              (Canvas.mkState false [mkPoint 0 0 (Some 0.1) (Some 10)] [] []))
    as (added & Hrun & Hidle & _).
  exists added. split; [exact Hrun | apply Hidle; reflexivity].
Defined.

(** ** The session invariant *)

Lemma drawn_parts (pts : list Point) :
  Stroke.drawn pts -> Forall Stroke.sampled pts /\ Stroke.spaced pts.
Proof. intros (_ & H1 & H2). now split. Qed.

Lemma drawn_app (pts added : list Point) :
  Stroke.drawn pts ->
  Forall Stroke.sampled (pts ++ added) -> Stroke.spaced (pts ++ added) ->
  Stroke.drawn (pts ++ added).
Proof.
  intros ((p & rest & -> & Hp) & _) Hs Hsp. split; [|now split].
  exists p, (rest ++ added). now split.
Qed.

Lemma Forall_snoc_inv {A} (P : A -> Prop) (l : list A) (a : A) :
  Forall P (l ++ [a]) -> Forall P l /\ P a.
Proof.
  intros H. apply Forall_app in H as [Hl Ha]. split; [assumption|].
  now inversion Ha.
Qed.

Lemma handlePointerUp_drawing (canvas_settings : StrokeSettings)
  (tool : ToolType) (cur : list Point) (h r : list DrawnStroke) :
  Canvas.handlePointerUp canvas_settings tool (Canvas.mkState true cur h r)
  = if (1 <? length cur)%nat then
      Canvas.mkState false []
        (h ++ [mkStroke cur
                 (match tool with
                  | ERASER => "eraser"%string
                  | PEN => color canvas_settings
                  end) canvas_settings]) []
    else Canvas.mkState false [] h r.
Proof.
  unfold Canvas.handlePointerUp.
  cbn [negb Canvas.currentPoints Canvas.history Canvas.redoStack Canvas.isDrawing].
  now destruct (1 <? length cur)%nat.
Qed.

Lemma Forall_removelast {A} (P : A -> Prop) (l : list A) :
  Forall P l -> Forall P (removelast l).
Proof.
  intros H. destruct (snoc_cases l) as [->|(l' & a & ->)]; [exact H|].
  rewrite removelast_last. now apply Forall_snoc_inv in H.
Qed.

Section Sound.

(** The latest state [(d, cur, h, r)] and the state the last render
    captured, [(d', cur', h', r')], both consistent. *)
Variables (t t' : ToolType) (o o' : StrokeSettings).
Variables (d d' : bool) (cur cur' : list Point) (h h' r r' : list DrawnStroke).

Let now_ := Canvas.mkState d cur h r.
Let seen := Canvas.mkState d' cur' h' r'.

Hypothesis latest_ok : Session.consistent (Session.mkSession t o now_).
Hypothesis rendered_ok : Session.consistent (Session.mkSession t' o' seen).

Lemma undoFrom_consistent :
  exists c, App.handleUndoFrom seen now_ = Ok c /\
            Session.consistent (Session.mkSession t o c).
Proof.
  destruct latest_ok as (H1 & H2 & Hh & Hr).
  destruct rendered_ok as (_ & _ & Hh' & _). cbn in H1, H2, Hh, Hr, Hh'.
  unfold App.handleUndoFrom. cbn [Canvas.history seen now_].
  destruct (snoc_cases h') as [->|(h0 & s & ->)].
  - eexists; split; [reflexivity|]. exact latest_ok.
  - rewrite length_snoc_nonzero, at_index_last. cbn [bind ret].
    eexists; split; [reflexivity|].
    apply Forall_snoc_inv in Hh' as [_ Hs].
    refine (conj H1 (conj H2 (conj (Forall_removelast _ _ Hh) _))).
    apply Forall_app. split; auto.
Qed.

Lemma redoFrom_consistent :
  exists c, App.handleRedoFrom seen now_ = Ok c /\
            Session.consistent (Session.mkSession t o c).
Proof.
  destruct latest_ok as (H1 & H2 & Hh & Hr).
  destruct rendered_ok as (_ & _ & _ & Hr'). cbn in H1, H2, Hh, Hr, Hr'.
  unfold App.handleRedoFrom. cbn [Canvas.redoStack seen now_].
  destruct (snoc_cases r') as [->|(r0 & s & ->)].
  - eexists; split; [reflexivity|]. exact latest_ok.
  - rewrite length_snoc_nonzero, at_index_last. cbn [bind ret].
    eexists; split; [reflexivity|].
    apply Forall_snoc_inv in Hr' as [_ Hs].
    refine (conj H1 (conj H2 (conj _ (Forall_removelast _ _ Hr)))).
    apply Forall_app. split; auto.
Qed.

Lemma clearFrom_consistent :
  Session.consistent (Session.mkSession t o (App.handleClearFrom seen now_)).
Proof.
  destruct latest_ok as (H1 & H2 & Hh & Hr). cbn in H1, H2, Hh, Hr.
  unfold App.handleClearFrom. destruct (0 <? length (Canvas.history seen))%nat.
  - exact (conj H1 (conj H2 (conj (Forall_nil _) (Forall_nil _)))).
  - exact latest_ok.
Qed.

Lemma pointerUpFrom_consistent :
  Session.consistent
    (Session.mkSession t o (Canvas.handlePointerUpFrom o' t' seen now_)).
Proof.
  destruct latest_ok as (H1 & H2 & Hh & Hr).
  destruct rendered_ok as (H1' & H2' & Hh' & _).
  cbn in H1, H2, Hh, Hr, H1', H2', Hh'. unfold now_. destruct d.
  - rewrite handlePointerUpFrom_drawing. cbn [Canvas.currentPoints Canvas.history seen].
    destruct (Nat.ltb_spec 1 (length cur')) as [Hlen|Hlen].
    + refine (conj (fun _ => eq_refl) (conj _ (conj _ (Forall_nil _))));
        [discriminate|].
      cbn. apply Forall_app. split; [assumption|]. constructor; [|constructor].
      split; cbn; [lia|]. destruct d'; [now apply H2'|].
      rewrite (H1' eq_refl) in Hlen. cbn in Hlen. lia.
    + refine (conj (fun _ => eq_refl) (conj _ (conj Hh Hr))). discriminate.
  - rewrite handlePointerUpFrom_idle by reflexivity. exact latest_ok.
Qed.

End Sound.

Lemma step_sound (a : Session.Action) (p : Session.Running) :
  Session.sound p ->
  exists p', Session.step a p = Ok p' /\ Session.sound p'.
Proof.
  destruct p as [[t o [d cur h r]] [t' o' [d' cur' h' r']]].
  intros [Hnow Hseen]. cbn [Session.latest Session.rendered] in Hnow, Hseen.
  destruct a as [rect e now|rect e coalesced| | | | |e|tl|st| ];
    cbn [Session.step Session.latest Session.rendered Session.app_canvas
         Session.app_tool Session.app_settings].
  - (* pointer down *)
    unfold Canvas.handlePointerDown.
    destruct (getPoint_sampled rect now e []) as (pt & -> & _ & Ht).
    cbn [bind ret]. eexists; split; [reflexivity|].
    split; [|exact Hseen]. destruct Hnow as (_ & _ & Hh & Hr).
    unfold Session.consistent. cbn.
    split; [discriminate|]. split; [|now split]. intros _.
    split; [eexists _, []; split; reflexivity|].
    split; [|apply spaced_one]. constructor; [|constructor]. split.
    + exists 0.1. split; [reflexivity | lra].
    + exists now. exact Ht.
  - (* pointer move *)
    destruct Hnow as (Hidle & Hdraw & Hh & Hr). cbn in Hidle, Hdraw, Hh, Hr.
    assert (Hparts : Forall Stroke.sampled cur /\ Stroke.spaced cur).
    { destruct d.
      - apply drawn_parts. now apply Hdraw.
      - rewrite (Hidle eq_refl). split; [constructor | apply spaced_nil]. }
    destruct Hparts as [Hs Hsp].
    destruct (handlePointerMove_appends rect e coalesced
                (Canvas.mkState d cur h r) Hs Hsp)
      as (added & -> & Hnone & _ & Hs' & Hsp').
    cbn [bind ret]. eexists; split; [reflexivity|].
    split; [|exact Hseen].
    unfold Session.consistent. cbn. refine (conj _ (conj _ (conj Hh Hr))).
    + intros Hd. rewrite (Hnone Hd), (Hidle Hd). reflexivity.
    + intros Hd. apply drawn_app; auto.
  - (* pointer up *)
    eexists; split; [reflexivity|]. split; [|exact Hseen].
    cbn [Session.latest Session.write Session.with_canvas Session.app_tool
         Session.app_settings].
    eapply pointerUpFrom_consistent; [exact Hnow | exact Hseen].
  - (* undo *)
    edestruct undoFrom_consistent as (c & Hc & Hok); [exact Hnow | exact Hseen |].
    rewrite Hc. cbn [bind ret]. eexists; split; [reflexivity|]. now split.
  - (* redo *)
    edestruct redoFrom_consistent as (c & Hc & Hok); [exact Hnow | exact Hseen |].
    rewrite Hc. cbn [bind ret]. eexists; split; [reflexivity|]. now split.
  - (* clear *)
    eexists; split; [reflexivity|]. split; [|exact Hseen].
    cbn [Session.latest Session.write Session.with_canvas Session.app_tool
         Session.app_settings].
    eapply clearFrom_consistent. exact Hnow.
  - (* key down *)
    unfold App.handleKeyDownFrom.
    destruct ((App.metaKey e || App.ctrlKey e) && String.eqb (App.key e) "z").
    + destruct (App.shiftKey e).
      * edestruct redoFrom_consistent as (c & Hc & Hok);
          [exact Hnow | exact Hseen |].
        rewrite Hc. cbn [bind ret]. eexists; split; [reflexivity|]. now split.
      * edestruct undoFrom_consistent as (c & Hc & Hok);
          [exact Hnow | exact Hseen |].
        rewrite Hc. cbn [bind ret]. eexists; split; [reflexivity|]. now split.
    + cbn [bind ret]. eexists; split; [reflexivity|]. now split.
  - eexists; split; [reflexivity|]. now split.
  - eexists; split; [reflexivity|]. now split.
  - (* render *)
    eexists; split; [reflexivity|]. now split.
Qed.

Lemma run_sound (actions : list Session.Action) :
  forall p, Session.sound p ->
  exists p', Session.run actions p = Ok p' /\ Session.sound p'.
Proof.
  induction actions as [|a rest IH]; intros p Hp.
  - exists p. now split.
  - cbn [Session.run]. destruct (step_sound a p Hp) as (p1 & -> & Hp1).
    cbn [bind]. now apply IH.
Qed.

Lemma initial_consistent : Session.consistent Session.initial.
Proof.
  unfold Session.consistent, Session.initial. cbn.
  refine (conj (fun _ => eq_refl) (conj _ (conj (Forall_nil _) (Forall_nil _)))).
  discriminate.
Qed.

Lemma start_sound : Session.sound Session.start.
Proof. split; exact initial_consistent. Qed.

(** Whatever the user does, in whatever order, and whenever React
    renders in between - pointer down, move, up or leave, undo, redo,
    clear, keyboard shortcuts, changes of tool and settings, each
    handler reading what the last render captured - no handler faults,
    and in the latest state as in the rendered one every stroke of the
    history and of the redo stack has at least 2 points, starts at
    pressure [0.1], has a non-zero pressure and a time at every point,
    and has consecutive points at least one unit apart.  The stroke in
    progress, when there is one, has the same shape; when there is
    none, there are no pending points. *)
Theorem every_session_is_consistent (actions : list Session.Action) :
  exists p,
    Session.run actions Session.start = Ok p /\
    Session.consistent (Session.latest p) /\
    Session.consistent (Session.rendered p).
Proof. apply run_sound. exact start_sound. Qed.

(** ** Strokes as the application draws them *)

Section Drawn.

Variable points : list Point.
Variable options : StrokeSettings.

Hypothesis enough : (2 <= length points)%nat.
Hypothesis is_drawn : Stroke.drawn points.

Lemma drawn_direction (i : nat) (a b v : Point) :
  nth_error points i = Some a -> nth_error points (S i) = Some b ->
  Ink.normalize (Ink.sub b a) = Ok v -> Js.hypot (x v) (y v) = 1.
Proof.
  intros Ha Hb Hv. destruct is_drawn as (_ & _ & Hsp).
  pose proof (Hsp i a b Ha Hb) as Hfar.
  destruct (normalize_spec (Ink.sub b a)) as (v' & Hv' & _ & Hunit).
  rewrite Hv in Hv'. injection Hv' as <-. apply Hunit.
  cbn [Ink.sub x y xy]. lra.
Qed.

Lemma drawn_prevVector (k : nat) (st : Ink.LoopState) :
  (k <= length points)%nat ->
  Ink.stateAt points options k = Ok st ->
  Js.hypot (x (Ink.prevVector st)) (y (Ink.prevVector st)) = 1.
Proof.
  revert st. induction k as [|k IH]; intros st Hk Hst.
  - destruct (initial_spec points enough) as (p0 & p1 & v & H0 & H1 & Hv & Hi).
    unfold Ink.stateAt in Hst. rewrite Hi in Hst. cbn in Hst. injection Hst as <-.
    cbn [Ink.prevVector]. exact (drawn_direction 0 p0 p1 v H0 H1 Hv).
  - destruct (stateAt_total points options k enough) as (s & Hs & _); [lia|].
    rewrite stateAt_S, Hs in Hst. cbn [bind] in Hst.
    destruct (iteration_spec points options k s) as (l & Hl & Hit); [lia|].
    rewrite Hit in Hst. injection Hst as <-. cbn [Ink.prevVector].
    destruct (locals_spec points options k s) as
      (l' & Hl' & Hc & _ & _ & Hnext & Hlast & _); [lia|].
    rewrite Hl in Hl'. injection Hl' as <-.
    destruct (Nat.lt_ge_cases (S k) (length points)) as [Hlt|Hge].
    + destruct (Hnext Hlt) as (nx & Hnx & Hv).
      exact (drawn_direction k _ nx _ Hc Hnx Hv).
    + rewrite Hlast by lia. apply (IH s); [lia | assumption].
Qed.

End Drawn.

(** On a stroke built by the pointer handlers the outline builder never
    meets its two special cases: the smoothed pressure is seeded with
    the first point's own pressure [0.1] (not with the default), and the
    direction at every point is a vector of length [1] (never the
    [(0,0)] that [normalize] gives for coinciding points). *)
Theorem drawn_stroke_avoids_the_defaults
  (points : list Point) (options : StrokeSettings) :
  (2 <= length points)%nat ->
  Stroke.drawn points ->
  (exists st0, Ink.stateAt points options 0 = Ok st0 /\
               Ink.prevPressure st0 = 0.1) /\
  forall i, (i < length points)%nat ->
  exists st_i loc,
    Ink.stateAt points options i = Ok st_i /\
    Ink.locals points options i st_i = Ok loc /\
    Js.hypot (x (Ink.vector loc)) (y (Ink.vector loc)) = 1.
Proof.
  intros Hn Hd. split.
  - destruct (initial_spec points Hn) as (p0 & p1 & v & H0 & _ & _ & Hi).
    unfold Ink.stateAt. rewrite Hi. cbn [bind Ink.for_each seq ret].
    eexists; split; [reflexivity|]. cbn [Ink.prevPressure].
    destruct Hd as ((p & rest & -> & Hp) & _). injection H0 as <-.
    rewrite Hp. unfold Js.or_opt, Js.or_num.
    rewrite (proj2 (eqb_neq 0.1 0)) by lra. reflexivity.
  - intros i Hi.
    destruct (stateAt_total points options i Hn) as (st & Hst & _); [lia|].
    destruct (iteration_spec points options i st Hi) as (l & Hl & Hit).
    exists st, l. split; [assumption|]. split; [assumption|].
    assert (Hst' : Ink.stateAt points options (S i) = Ok
                     (Ink.mkLoop (Ink.l_pressure l) (Ink.vector l)
                        (Ink.leftPts st ++ [Ink.sub (Ink.curr l) (Ink.offset l)])
                        (Ink.rightPts st ++ [Ink.add (Ink.curr l) (Ink.offset l)])))
      by (rewrite stateAt_S, Hst; cbn [bind]; exact Hit).
    exact (drawn_prevVector points options Hn Hd (S i) _ ltac:(lia) Hst').
Qed.

Lemma drawn_stroke_avoids_the_defaults_witness :
  (exists st0,
     Ink.stateAt [mkPoint 0 0 (Some 0.1) (Some 10); mkPoint 3 4 (Some 0.8) (Some 26)]
       App.INITIAL_SETTINGS 0 = Ok st0 /\
     Ink.prevPressure st0 = 0.1) /\
  forall i, (i < 2)%nat ->
  exists st_i loc,
    Ink.stateAt [mkPoint 0 0 (Some 0.1) (Some 10); mkPoint 3 4 (Some 0.8) (Some 26)]
      App.INITIAL_SETTINGS i = Ok st_i /\
    Ink.locals [mkPoint 0 0 (Some 0.1) (Some 10); mkPoint 3 4 (Some 0.8) (Some 26)]
      App.INITIAL_SETTINGS i st_i = Ok loc /\
    Js.hypot (x (Ink.vector loc)) (y (Ink.vector loc)) = 1.
Proof.
  apply (drawn_stroke_avoids_the_defaults
           [mkPoint 0 0 (Some 0.1) (Some 10); mkPoint 3 4 (Some 0.8) (Some 26)]
           App.INITIAL_SETTINGS).
  - simpl. lia.
  - split; [eexists _, _; split; reflexivity|]. split.
    + repeat constructor; cbn [pressure time]; eauto.
      * exists 0.1. split; [reflexivity | lra].
      * exists 0.8. split; [reflexivity | lra].
    + intros [|[|i]] a b Ha Hb; simpl in Ha, Hb; try discriminate.
      injection Ha as <-. injection Hb as <-. simpl.
      rewrite (hypot_eq _ _ 5) by lra. lra.
Defined.

(** ** Redrawing the canvas *)

Section Redraw.

Variable toFixed : R -> nat -> string.

Lemma draw_long (op : Render.CompositeOperation) (pts : list Point)
  (fill_color : string) (opts : StrokeSettings) :
  (2 <= length pts)%nat ->
  exists path,
    Render.draw toFixed op pts fill_color opts
    = Ok [Render.mkFill op path fill_color].
Proof.
  intros Hn. unfold Render.draw, Canvas.drawStrokeToCtx.
  destruct (Nat.ltb_spec (length pts) 2); [lia|].
  destruct (outline_points pts opts Hn) as (o & -> & Hlen & _). cbn [bind].
  destruct o as [|start o']; [cbn in Hlen; lia|].
  rewrite (getSvgPathFromStroke_refines toFixed (start :: o') start eq_refl).
  cbn [bind ret]. eexists; reflexivity.
Qed.

Lemma draw_short (op : Render.CompositeOperation) (pts : list Point)
  (fill_color : string) (opts : StrokeSettings) :
  (length pts < 2)%nat -> Render.draw toFixed op pts fill_color opts = Ok [].
Proof.
  intros Hn. unfold Render.draw, Canvas.drawStrokeToCtx.
  destruct (Nat.ltb_spec (length pts) 2); [reflexivity | lia].
Qed.

Lemma drawHistoryStroke_long (stroke : DrawnStroke) :
  (2 <= length (points stroke))%nat ->
  exists f, Render.drawHistoryStroke toFixed stroke = Ok [f] /\ Render.paints stroke f.
Proof.
  intros Hn. unfold Render.drawHistoryStroke, Render.paints.
  destruct (String.eqb (stroke_color stroke) "eraser").
  - destruct (draw_long Render.DestinationOut (points stroke) "#000000"
                (settings stroke) Hn) as (path & ->).
    eexists; split; [reflexivity|]. now split.
  - destruct (draw_long Render.SourceOver (points stroke) (stroke_color stroke)
                (settings stroke) Hn) as (path & ->).
    eexists; split; [reflexivity|]. now split.
Qed.

Lemma drawHistory_long (history : list DrawnStroke) :
  Forall Session.committed history ->
  exists fills,
    Render.drawHistory toFixed history = Ok fills /\
    Forall2 Render.paints history fills.
Proof.
  induction 1 as [|stroke rest [Hlen _] _ IH].
  - exists []. split; [reflexivity | constructor].
  - cbn [Render.drawHistory].
    destruct (drawHistoryStroke_long stroke Hlen) as (f & -> & Hf).
    destruct IH as (fills & -> & Hfills). cbn [bind ret app].
    exists (f :: fills). split; [reflexivity | now constructor].
Qed.

End Redraw.

(** Every redraw paints every stroke of the history.  After any
    sequence of user actions and renders, [renderCanvas] run on what the
    last render captured succeeds and performs exactly one fill per
    history stroke, in history order - an eraser stroke in black with
    [destination-out], any other in its own colour with [source-over] -
    followed by one fill for the stroke in progress exactly when that
    stroke has at least 2 points. *)
Theorem every_redraw_paints_the_history (toFixed : R -> nat -> string)
  (actions : list Session.Action) :
  exists p past current,
    Session.run actions Session.start = Ok p /\
    Render.renderCanvas toFixed (Session.app_settings (Session.rendered p))
      (Session.app_tool (Session.rendered p))
      (Session.app_canvas (Session.rendered p)) = Ok (past ++ current) /\
    Forall2 Render.paints
      (Canvas.history (Session.app_canvas (Session.rendered p))) past /\
    length current
    = (if (2 <=? length (Canvas.currentPoints
                           (Session.app_canvas (Session.rendered p))))%nat
       then 1 else 0)%nat.
Proof.
  destruct (run_sound actions Session.start start_sound)
    as (p & Hrun & _ & _ & _ & Hh & _).
  set (s := Session.rendered p) in *.
  destruct (drawHistory_long toFixed _ Hh) as (past & Hpast & Hpaints).
  exists p, past. fold s. unfold Render.renderCanvas. rewrite Hpast. cbn [bind].
  set (cur := Canvas.currentPoints (Session.app_canvas s)).
  destruct (Nat.leb_spec 2 (length cur)) as [Hlong|Hshort].
  - destruct (Nat.ltb_spec 0 (length cur)); [|lia].
    destruct (Session.app_tool s).
    + destruct (draw_long toFixed Render.SourceOver cur
                  (color (Session.app_settings s)) (Session.app_settings s) Hlong)
        as (path & ->).
      cbn [bind ret]. eexists. repeat split; auto.
    + destruct (draw_long toFixed Render.DestinationOut cur "#000000"
                  (Session.app_settings s) Hlong) as (path & ->).
      cbn [bind ret]. eexists. repeat split; auto.
  - exists []. split; [assumption|]. split; [|split; [assumption | reflexivity]].
    destruct (0 <? length cur)%nat; [destruct (Session.app_tool s)|];
      rewrite ?draw_short by assumption; reflexivity.
Qed.

(** ** Starting, abandoning and taking back a stroke *)

Lemma handlePointerDown_result (rect : Canvas.DOMRect) (now : R)
  (e : Canvas.PointerEvent) (st : Canvas.State) :
  Canvas.handlePointerDown rect now e st
  = Ok (Canvas.mkState true
          [mkPoint (Canvas.clientX e - Canvas.rect_left rect)
             (Canvas.clientY e - Canvas.rect_top rect) (Some 0.1) (Some now)]
          (Canvas.history st) (Canvas.redoStack st)).
Proof.
  unfold Canvas.handlePointerDown.
  destruct (getPoint_cases rect now e []) as (v & -> & _). reflexivity.
Qed.

(** Pointer-down always starts a fresh stroke of exactly one point, at
    the pointer position relative to the canvas, stamped with the time
    of the call and with pressure [0.1] whatever pressure the device
    reports; points of an unfinished stroke are discarded, history and
    redo stack are not touched. *)
Theorem pointer_down_starts_light (rect : Canvas.DOMRect) (now : R)
  (e : Canvas.PointerEvent) (st : Canvas.State) :
  Canvas.handlePointerDown rect now e st
  = Ok (Canvas.mkState true
          [mkPoint (Canvas.clientX e - Canvas.rect_left rect)
             (Canvas.clientY e - Canvas.rect_top rect) (Some 0.1) (Some now)]
          (Canvas.history st) (Canvas.redoStack st)).
Proof. apply handlePointerDown_result. Qed.

Lemma appendEvents_all_near (rect : Canvas.DOMRect)
  (events : list (Canvas.PointerEvent * R)) (next : list Point) (last : Point) :
  nth_error next (length next - 1) = Some last ->
  next <> [] ->
  (forall evt t, In (evt, t) events ->
     Js.hypot (Canvas.clientX evt - Canvas.rect_left rect - x last)
              (Canvas.clientY evt - Canvas.rect_top rect - y last) < 1) ->
  Canvas.appendEvents rect events next = Ok next.
Proof.
  intros Hlast Hne. induction events as [|[evt t] rest IH]; intros Hnear.
  - reflexivity.
  - cbn [Canvas.appendEvents].
    destruct (getPoint_cases rect t evt next) as (v & -> & _). cbn [bind].
    destruct (Nat.ltb_spec 0 (length next)) as [Hlen|Hlen];
      [|destruct next; [contradiction | cbn in Hlen; lia]].
    unfold Js.at_index. rewrite Hlast. cbn [bind x y].
    unfold Js.ltb.
    destruct (Rlt_dec _ 1) as [_|Hfar].
    + apply IH. intros evt' t' Hin. apply (Hnear evt' t'). now right.
    + exfalso. apply Hfar. apply (Hnear evt t). now left.
Qed.

(** A tap draws nothing.  Pointer-down, then a pointer move all of
    whose events stay less than one unit from where the pointer went
    down, then pointer-up: the history and the redo stack are as before,
    and no point is left pending. *)
Theorem tap_draws_nothing (rect : Canvas.DOMRect) (now : R)
  (down : Canvas.PointerEvent) (move : Canvas.PointerEvent * R)
  (coalesced : list (Canvas.PointerEvent * R))
  (canvas_settings : StrokeSettings) (tool : ToolType) (st : Canvas.State) :
  (forall evt t, In (evt, t) (move :: coalesced) ->
     Js.hypot (Canvas.clientX evt - Canvas.clientX down)
              (Canvas.clientY evt - Canvas.clientY down) < 1) ->
  exists pressed moved,
    Canvas.handlePointerDown rect now down st = Ok pressed /\
    Canvas.handlePointerMove rect move coalesced pressed = Ok moved /\
    Canvas.handlePointerUp canvas_settings tool moved
    = Canvas.mkState false [] (Canvas.history st) (Canvas.redoStack st).
Proof.
  intros Hnear. rewrite handlePointerDown_result.
  eexists; eexists. split; [reflexivity|].
  unfold Canvas.handlePointerMove.
  cbn [Canvas.isDrawing negb Canvas.currentPoints Canvas.history Canvas.redoStack].
  rewrite (appendEvents_all_near rect _ _
             (mkPoint (Canvas.clientX down - Canvas.rect_left rect)
                (Canvas.clientY down - Canvas.rect_top rect) (Some 0.1) (Some now))).
  - cbn [bind ret]. split; [reflexivity|]. rewrite handlePointerUp_drawing.
    reflexivity.
  - reflexivity.
  - discriminate.
  - intros evt t Hin. cbn [x y].
    replace (Canvas.clientX evt - Canvas.rect_left rect
             - (Canvas.clientX down - Canvas.rect_left rect))
      with (Canvas.clientX evt - Canvas.clientX down) by ring.
    replace (Canvas.clientY evt - Canvas.rect_top rect
             - (Canvas.clientY down - Canvas.rect_top rect))
      with (Canvas.clientY evt - Canvas.clientY down) by ring.
    apply (Hnear evt t).
    destruct (0 <? length coalesced)%nat; [now right|].
    destruct Hin as [<-|[]]. now left.
Qed.

Lemma tap_draws_nothing_witness :
  exists pressed moved,
    Canvas.handlePointerDown (Canvas.mkRect 0 0) 10 (Canvas.mkEvent 5 5 0.5)
      (Canvas.mkState false [] [] []) = Ok pressed /\
    Canvas.handlePointerMove (Canvas.mkRect 0 0) (Canvas.mkEvent 5.5 5 0.5, 12) []
      pressed = Ok moved /\
    Canvas.handlePointerUp App.INITIAL_SETTINGS PEN moved
    = Canvas.mkState false [] [] [].
Proof.
  apply (tap_draws_nothing (Canvas.mkRect 0 0) 10 (Canvas.mkEvent 5 5 0.5)
           (Canvas.mkEvent 5.5 5 0.5, 12) [] App.INITIAL_SETTINGS PEN
           (Canvas.mkState false [] [] [])).
  intros evt t [E|[]]. injection E as <- <-. simpl.
  rewrite (hypot_eq _ _ 0.5) by lra. lra.
Defined.

(** A committed stroke can be taken back: when a pointer-up whose
    render saw at least 2 points of the stroke in progress has committed
    it, undo (with that state rendered) restores the history the stroke
    was appended to and leaves exactly that stroke to redo. *)
Theorem commit_then_undo (canvas_settings : StrokeSettings) (tool : ToolType)
  (seen st : Canvas.State) :
  Canvas.isDrawing st = true ->
  (2 <= length (Canvas.currentPoints seen))%nat ->
  exists committed st',
    Canvas.handlePointerUpFrom canvas_settings tool seen st = committed /\
    App.handleUndoFrom committed committed = Ok st' /\
    Canvas.history st' = Canvas.history seen /\
    Canvas.redoStack st'
    = [mkStroke (Canvas.currentPoints seen)
         (match tool with
          | ERASER => "eraser"%string
          | PEN => color canvas_settings
          end) canvas_settings] /\
    Canvas.currentPoints st' = [] /\ Canvas.isDrawing st' = false.
Proof.
  intros Hd Hn. destruct st as [d cur h r]. cbn in Hd. subst d.
  rewrite handlePointerUpFrom_drawing.
  destruct (Nat.ltb_spec 1 (length (Canvas.currentPoints seen))); [|lia].
  eexists _, _. split; [reflexivity|].
  split; [exact (handleUndo_snoc _ _ _ _ _)|]. repeat split.
Qed.

Lemma commit_then_undo_witness :
  exists committed st',
    Canvas.handlePointerUpFrom App.INITIAL_SETTINGS ERASER
      (Canvas.mkState true [xy 0 0; xy 3 4]
         [mkStroke [xy 1 1; xy 5 5] "#dc2626" App.INITIAL_SETTINGS] [])
      (Canvas.mkState true [xy 0 0; xy 3 4; xy 6 8]
         [mkStroke [xy 1 1; xy 5 5] "#dc2626" App.INITIAL_SETTINGS] [])
    = committed /\
    App.handleUndoFrom committed committed = Ok st' /\
    Canvas.history st' = [mkStroke [xy 1 1; xy 5 5] "#dc2626" App.INITIAL_SETTINGS] /\
    Canvas.redoStack st'
    = [mkStroke [xy 0 0; xy 3 4] "eraser" App.INITIAL_SETTINGS] /\
    Canvas.currentPoints st' = [] /\ Canvas.isDrawing st' = false.
Proof.
  apply (commit_then_undo App.INITIAL_SETTINGS ERASER
           (Canvas.mkState true [xy 0 0; xy 3 4]
              [mkStroke [xy 1 1; xy 5 5] "#dc2626" App.INITIAL_SETTINGS] [])
           (Canvas.mkState true [xy 0 0; xy 3 4; xy 6 8]
              [mkStroke [xy 1 1; xy 5 5] "#dc2626" App.INITIAL_SETTINGS] [])).
  - reflexivity.
  - simpl. lia.
Defined.

Lemma getPoint_pressure_never_zero_witness :
  exists p v,
    Canvas.getPoint (Canvas.mkRect 2 3) 20 (Canvas.mkEvent 7 9 0)
      [mkPoint 0 0 (Some 0.1) (Some 10)] = Ok p /\
    pressure p = Some v /\ v <> 0 /\ 0.1 <= v <= 1.
Proof.
  destruct (getPoint_pressure_never_zero (Canvas.mkRect 2 3) 20
              (Canvas.mkEvent 7 9 0) [mkPoint 0 0 (Some 0.1) (Some 10)])
    as (p & v & Hp & Hv & Hnz & _ & Hsim & _).
  exists p, v. repeat split; try assumption; apply Hsim; left; reflexivity.
Defined.

Lemma undo_redo_keep_the_timeline_witness :
  exists st',
    App.handleUndo
      (Canvas.mkState false [] []
         [mkStroke [xy 0 0; xy 3 4] "#1c1917" App.INITIAL_SETTINGS]) = Ok st' /\
    st' = Canvas.mkState false [] []
            [mkStroke [xy 0 0; xy 3 4] "#1c1917" App.INITIAL_SETTINGS].
Proof.
  destruct (undo_redo_keep_the_timeline
              (Canvas.mkState false [] []
                 [mkStroke [xy 0 0; xy 3 4] "#1c1917" App.INITIAL_SETTINGS]))
    as [(st' & Hrun & _ & _ & _ & Hsame) _].
  exists st'. split; [exact Hrun | apply Hsame; reflexivity].
Defined.

(** ** Pointer-up and the render it belongs to *)

(** A pointer move by at least one unit, while a stroke is in progress,
    appends exactly the sample of its event. *)
Lemma handlePointerMove_far (rect : Canvas.DOMRect) (evt : Canvas.PointerEvent)
  (t : R) (cur : list Point) (last : Point) (h r : list DrawnStroke) :
  nth_error cur (length cur - 1) = Some last ->
  cur <> [] ->
  1 <= Js.hypot (Canvas.clientX evt - Canvas.rect_left rect - x last)
                (Canvas.clientY evt - Canvas.rect_top rect - y last) ->
  exists pt,
    Canvas.handlePointerMove rect (evt, t) [] (Canvas.mkState true cur h r)
    = Ok (Canvas.mkState true (cur ++ [pt]) h r).
Proof.
  intros Hlast Hne Hfar. unfold Canvas.handlePointerMove.
  change (0 <? length (@nil (Canvas.PointerEvent * R)))%nat with false.
  cbn [Canvas.isDrawing negb Canvas.currentPoints Canvas.history
       Canvas.redoStack Canvas.appendEvents].
  destruct (getPoint_cases rect t evt cur) as (v & -> & _). cbn [bind].
  destruct (Nat.ltb_spec 0 (length cur)) as [Hlen|Hlen];
    [|destruct cur; [contradiction | cbn in Hlen; lia]].
  unfold Js.at_index. rewrite Hlast. cbn [bind x y]. unfold Js.ltb.
  destruct (Rlt_dec _ 1) as [Hnear|_]; [lra|].
  cbn [bind ret]. eexists; reflexivity.
Qed.

(** Pointer-up commits what its render saw.  While a stroke is in
    progress, the stroke appended to the history is the one the render
    captured, appended to the history the render captured, and it is
    appended exactly when the captured stroke has at least 2 points;
    otherwise history and redo stack stay as they are.  Either way the
    pending points are cleared. *)
Lemma pointer_up_commits_what_its_render_saw
  (canvas_settings : StrokeSettings) (tool : ToolType)
  (seen st : Canvas.State) :
  Canvas.isDrawing st = true ->
  let st' := Canvas.handlePointerUpFrom canvas_settings tool seen st in
  ((2 <= length (Canvas.currentPoints seen))%nat ->
     Canvas.history st'
     = Canvas.history seen
         ++ [mkStroke (Canvas.currentPoints seen)
               (match tool with
                | ERASER => "eraser"%string
                | PEN => color canvas_settings
                end) canvas_settings] /\
     Canvas.redoStack st' = []) /\
  ((length (Canvas.currentPoints seen) < 2)%nat ->
     Canvas.history st' = Canvas.history st /\
     Canvas.redoStack st' = Canvas.redoStack st) /\
  Canvas.currentPoints st' = [] /\
  Canvas.isDrawing st' = false.
Proof.
  intros Hd. cbv zeta. destruct st as [d cur h r]. cbn in Hd. subst d.
  rewrite handlePointerUpFrom_drawing.
  destruct (Nat.ltb_spec 1 (length (Canvas.currentPoints seen))); cbn.
  - split; [now split|]. split; [intros; lia | now split].
  - split; [intros; lia|]. split; now split.
Qed.

(** C9, where code and claim part.  Pointer-down at [(0,0)], a render,
    a pointer move to [(3,4)]: the stroke in progress has 2 points.  A
    pointer-up that comes before the next render still sees the 1 point
    of the last render, commits nothing and clears the 2 points; the
    same pointer-up after a render commits the 2-point stroke. *)
Theorem C9_pointer_up_before_render_drops_the_stroke :
  exists drawing dropped committed stroke,
    Session.run
      [Session.PointerDown (Canvas.mkRect 0 0) (Canvas.mkEvent 0 0 0.5) 10;
       Session.Render;
       Session.PointerMove (Canvas.mkRect 0 0) (Canvas.mkEvent 3 4 0.5, 20) []]
      Session.start = Ok drawing /\
    Canvas.isDrawing (Session.app_canvas (Session.latest drawing)) = true /\
    length (Canvas.currentPoints (Session.app_canvas (Session.latest drawing)))
      = 2%nat /\
    Session.run [Session.PointerUp] drawing = Ok dropped /\
    Canvas.history (Session.app_canvas (Session.latest dropped)) = [] /\
    Canvas.currentPoints (Session.app_canvas (Session.latest dropped)) = [] /\
    Session.run [Session.Render; Session.PointerUp] drawing = Ok committed /\
    Canvas.history (Session.app_canvas (Session.latest committed)) = [stroke] /\
    length (points stroke) = 2%nat.
Proof.
  destruct (handlePointerMove_far (Canvas.mkRect 0 0) (Canvas.mkEvent 3 4 0.5) 20
              [mkPoint (0 - 0) (0 - 0) (Some 0.1) (Some 10)]
              (mkPoint (0 - 0) (0 - 0) (Some 0.1) (Some 10)) [] [])
    as (pt & Hmove).
  { reflexivity. }
  { discriminate. }
  { cbn [Canvas.clientX Canvas.clientY Canvas.rect_left Canvas.rect_top x y].
    rewrite (hypot_eq _ _ 5) by lra. lra. }
  set (p0 := mkPoint (0 - 0) (0 - 0) (Some 0.1) (Some 10)) in *.
  set (seen := Session.mkSession PEN App.INITIAL_SETTINGS
                 (Canvas.mkState true [p0] [] [])).
  set (drawing := Session.mkRunning
                    (Session.mkSession PEN App.INITIAL_SETTINGS
                       (Canvas.mkState true [p0; pt] [] []))
                    seen).
  assert (Hrun : Session.run
            [Session.PointerDown (Canvas.mkRect 0 0) (Canvas.mkEvent 0 0 0.5) 10;
             Session.Render;
             Session.PointerMove (Canvas.mkRect 0 0) (Canvas.mkEvent 3 4 0.5, 20) []]
            Session.start = Ok drawing).
  { unfold Session.start, Session.initial.
    cbn [Session.run Session.step Session.latest Session.rendered
         Session.app_canvas Session.app_tool Session.app_settings].
    rewrite handlePointerDown_result.
    cbn [bind ret Session.write Session.with_canvas Session.latest
         Session.rendered Session.app_canvas Session.app_tool
         Session.app_settings Canvas.history Canvas.redoStack
         Canvas.clientX Canvas.clientY Canvas.rect_left Canvas.rect_top].
    fold p0. rewrite Hmove. reflexivity. }
  exists drawing,
    (Session.mkRunning
       (Session.mkSession PEN App.INITIAL_SETTINGS (Canvas.mkState false [] [] []))
       seen),
    (Session.mkRunning
       (Session.mkSession PEN App.INITIAL_SETTINGS
          (Canvas.mkState false []
             [mkStroke [p0; pt] "#1c1917" App.INITIAL_SETTINGS] []))
       (Session.latest drawing)),
    (mkStroke [p0; pt] "#1c1917" App.INITIAL_SETTINGS).
  split; [exact Hrun|]. repeat split.
Qed.
